(** * Fretboard: the scale engine of the guitar scale visualizer

    A shallow embedding of the note and scale computations of
    [musician-fretboard-app.py]: the tables [NOTES], [MODES] and
    [GUITAR_TUNING], the functions [get_note_at_position],
    [get_scale_notes] and [is_note_in_scale], and the root test and the
    normalisation of the selected root note that [display_fretboard] and
    the sidebar code perform inline.

    Python strings are [string], Python integers are [Z], Python lists are
    [list].  An operation that can raise returns a [result]. *)

From Stdlib Require Import String Ascii List ZArith Bool Lia Sorted.
Import ListNotations.
Open Scope string_scope.
Open Scope Z_scope.

(** ** Exceptions *)

(** The three exceptions the engine's primitives can raise:
    [list.index] raises [ValueError], a dict lookup raises [KeyError] and
    list subscripting raises [IndexError]. *)
Inductive exn : Type :=
| ValueError
| KeyError
| IndexError.

Inductive result (A : Type) : Type :=
| Ok (a : A)
| Raise (e : exn).

Arguments Ok {A} a.
Arguments Raise {A} e.

Definition bind {A B : Type} (m : result A) (k : A -> result B) : result B :=
  match m with
  | Ok a => k a
  | Raise e => Raise e
  end.

Notation "x <- m ;; k" := (bind m (fun x => k))
  (at level 61, m at next level, right associativity).

(** A list comprehension whose element expression can raise: elements are
    evaluated left to right and the first exception ends the loop. *)
Fixpoint comprehension {A B : Type} (f : A -> result B) (xs : list A)
  : result (list B) :=
  match xs with
  | [] => Ok []
  | x :: rest =>
      y <- f x ;;
      ys <- comprehension f rest ;;
      Ok (y :: ys)
  end.

Definition succeeds {A : Type} (m : result A) : Prop :=
  exists a, m = Ok a.

(** ** Python primitives *)

Module Py.

(** [x in xs] on a list of strings: some element equals [x]. *)
Definition contains (x : string) (xs : list string) : bool :=
  existsb (String.eqb x) xs.

(** [c in s] for a one-character [c]: the character occurs in [s]. *)
Fixpoint has_char (c : ascii) (s : string) : bool :=
  match s with
  | EmptyString => false
  | String d rest => Ascii.eqb d c || has_char c rest
  end.

(** [xs.index(x)]: position of the first element equal to [x]. *)
Fixpoint index (x : string) (xs : list string) : result Z :=
  match xs with
  | [] => Raise ValueError
  | y :: rest =>
      if String.eqb y x then Ok 0
      else i <- index x rest ;; Ok (i + 1)
  end.

(** [s.split(sep)] for a one-character separator: the pieces between
    the separators, in order; never an empty list. *)
Fixpoint split (sep : ascii) (s : string) : list string :=
  match s with
  | EmptyString => [EmptyString]
  | String c rest =>
      if Ascii.eqb c sep then EmptyString :: split sep rest
      else match split sep rest with
           | [] => [String c EmptyString]
           | piece :: pieces => String c piece :: pieces
           end
  end.

(** [xs[i]]: a negative [i] counts from the end of the list. *)
Definition getitem {A : Type} (xs : list A) (i : Z) : result A :=
  let n := Z.of_nat (length xs) in
  let j := if i <? 0 then i + n else i in
  if (j <? 0) || (n <=? j) then Raise IndexError
  else match nth_error xs (Z.to_nat j) with
       | Some a => Ok a
       | None => Raise IndexError
       end.

(** [d[k]] on a dict with string keys, kept in insertion order. *)
Fixpoint lookup {V : Type} (k : string) (d : list (string * V)) : result V :=
  match d with
  | [] => Raise KeyError
  | (k', v) :: rest => if String.eqb k' k then Ok v else lookup k rest
  end.

Definition keys {V : Type} (d : list (string * V)) : list string :=
  map fst d.

(** [d.get(k, default)]: the value stored under [k], or the default. *)
Fixpoint get {V : Type} (k : string) (d : list (string * V)) (default : V)
  : V :=
  match d with
  | [] => default
  | (k', v) :: rest => if String.eqb k' k then v else get k rest default
  end.

End Py.

(** ** The tables *)

Definition slash : ascii := "/"%char.

Definition NOTES : list string :=
  ["C"; "C#/Db"; "D"; "D#/Eb"; "E"; "F"; "F#/Gb"; "G"; "G#/Ab"; "A";
   "A#/Bb"; "B"].

Definition MODES : list (string * list Z) :=
  [("Major (Ionian)", [0; 2; 4; 5; 7; 9; 11]);
   ("Dorian", [0; 2; 3; 5; 7; 9; 10]);
   ("Phrygian", [0; 1; 3; 5; 7; 8; 10]);
   ("Lydian", [0; 2; 4; 6; 7; 9; 11]);
   ("Mixolydian", [0; 2; 4; 5; 7; 9; 10]);
   ("Minor (Aeolian)", [0; 2; 3; 5; 7; 8; 10]);
   ("Locrian", [0; 1; 3; 5; 6; 8; 10]);
   ("Pentatonic Major", [0; 2; 4; 7; 9]);
   ("Pentatonic Minor", [0; 3; 5; 7; 10]);
   ("Blues", [0; 3; 5; 6; 7; 10])].

Definition GUITAR_TUNING : list string := ["E"; "B"; "G"; "D"; "A"; "E"].

Definition NUM_FRETS : Z := 15.

Definition display_notes : list string :=
  ["C"; "C#"; "D"; "D#"; "E"; "F"; "F#"; "G"; "G#"; "A"; "A#"; "B"].

Definition note_mapping : list (string * string) :=
  [("C#", "C#/Db"); ("D#", "D#/Eb"); ("F#", "F#/Gb"); ("G#", "G#/Ab");
   ("A#", "A#/Bb")].

(** ** The engine *)

(** The expression both lookups start with:
    [NOTES.index(n) if n in NOTES else NOTES.index(n.split('/')[0])]. *)
Definition start_index (name : string) : result Z :=
  if Py.contains name NOTES then Py.index name NOTES
  else first <- Py.getitem (Py.split slash name) 0 ;; Py.index first NOTES.

Definition get_note_at_position (string_note : string) (fret : Z)
  : result string :=
  start <- start_index string_note ;;
  let note_index := (start + fret) mod 12 in
  Py.getitem NOTES note_index.

Definition get_scale_notes (root_note mode : string) : result (list string) :=
  start <- start_index root_note ;;
  intervals <- Py.lookup mode MODES ;;
  comprehension (fun interval => Py.getitem NOTES ((start + interval) mod 12))
                intervals.

Definition is_note_in_scale (note : string) (scale_notes : list string)
  : result bool :=
  if Py.has_char slash note then
    first <- Py.getitem (Py.split slash note) 0 ;;
    if Py.contains first scale_notes then Ok true
    else
      second <- Py.getitem (Py.split slash note) 1 ;;
      Ok (Py.contains second scale_notes)
  else Ok (Py.contains note scale_notes).

(** The root test of [display_fretboard]:
    [note == root_note or ('/' in note and root_note in note.split('/'))]. *)
Definition is_root (note root_note : string) : bool :=
  String.eqb note root_note
  || (Py.has_char slash note && Py.contains root_note (Py.split slash note)).

(** The sidebar's mapping of the selected display name to the internal
    name: [if selected_note in note_mapping: selected_note = note_mapping[...]]. *)
Definition normalize (selected_note : string) : result string :=
  if Py.contains selected_note (Py.keys note_mapping)
  then Py.lookup selected_note note_mapping
  else Ok selected_note.

(** ** The fretboard grid *)

(** The three visual treatments [display_fretboard] chooses between. *)
Inductive marking : Type :=
| RootMark
| ScaleMark
| Plain.

(** [range(n)]. *)
Definition range (n : Z) : list Z :=
  map Z.of_nat (seq 0 (Z.to_nat n)).

(** One cell of the grid: the note of the position and its treatment. *)
Definition fret_cell (root_note : string) (scale_notes : list string)
           (open_string : string) (fret : Z) : result (string * marking) :=
  note <- get_note_at_position open_string fret ;;
  let root := is_root note root_note in
  in_scale <- is_note_in_scale note scale_notes ;;
  if in_scale then
    if root then Ok (note, RootMark) else Ok (note, ScaleMark)
  else Ok (note, Plain).

(** The cells [display_fretboard] renders, one row per string of the
    tuning and one cell per fret; the layout widgets are left out. *)
Definition display_fretboard (root_note mode : string)
  : result (list (list (string * marking))) :=
  scale_notes <- get_scale_notes root_note mode ;;
  comprehension
    (fun open_string =>
       comprehension (fret_cell root_note scale_notes open_string)
                     (range NUM_FRETS))
    GUITAR_TUNING.

(** ** Calls against the module's globals *)

(** [get_scale_notes] reads the module globals [NOTES] and [MODES] and
    builds a new list object.  Here the globals and the list objects the
    calls have built so far are an explicit store; a call returns the
    address of the list it built. *)
Module Stateful.

Record store : Type := {
  g_NOTES : list string;
  g_MODES : list (string * list Z);
  heap : list (list string)
}.

Definition M (A : Type) : Type := store -> result A * store.

Definition bindM {A B : Type} (m : M A) (k : A -> M B) : M B :=
  fun s =>
    match m s with
    | (Ok a, s') => k a s'
    | (Raise e, s') => (Raise e, s')
    end.

Definition lift {A : Type} (r : result A) : M A := fun s => (r, s).

Definition read_NOTES : M (list string) := fun s => (Ok (g_NOTES s), s).

Definition read_MODES : M (list (string * list Z)) :=
  fun s => (Ok (g_MODES s), s).

(** A new list object, placed after the ones already there. *)
Definition alloc (l : list string) : M nat :=
  fun s =>
    (Ok (length (heap s)),
     {| g_NOTES := g_NOTES s; g_MODES := g_MODES s;
        heap := heap s ++ [l] |}).

Definition deref (addr : nat) (s : store) : option (list string) :=
  nth_error (heap s) addr.

Definition start_index (name : string) : M Z :=
  bindM read_NOTES (fun notes =>
  if Py.contains name notes then lift (Py.index name notes)
  else
    bindM (lift (Py.getitem (Py.split slash name) 0)) (fun first =>
    lift (Py.index first notes))).

Definition get_scale_notes (root_note mode : string) : M nat :=
  bindM (start_index root_note) (fun start =>
  bindM read_MODES (fun modes =>
  bindM (lift (Py.lookup mode modes)) (fun intervals =>
  bindM read_NOTES (fun notes =>
  bindM (lift (comprehension
                 (fun interval =>
                    Py.getitem notes ((start + interval) mod 12))
                 intervals)) (fun l =>
  alloc l))))).

(** The store after the module body has run: the two tables, and no
    list built yet. *)
Definition initial : store :=
  {| g_NOTES := NOTES; g_MODES := MODES; heap := [] |}.

(** What a caller sees of a call: the exception, or the contents of the
    returned list. *)
Definition observe (out : result nat * store) : result (list string) :=
  match out with
  | (Ok addr, s) =>
      match deref addr s with
      | Some l => Ok l
      | None => Raise IndexError
      end
  | (Raise e, _) => Raise e
  end.

(** The store after a series of calls, each given by its root and mode,
    made one after the other. *)
Fixpoint run_calls (calls : list (string * string)) (s : store) : store :=
  match calls with
  | [] => s
  | (root_note, mode) :: rest =>
      run_calls rest (snd (get_scale_notes root_note mode s))
  end.

(** Two stores with the same tables, whatever lists they hold. *)
Definition same_tables (s s' : store) : Prop :=
  g_NOTES s' = g_NOTES s /\ g_MODES s' = g_MODES s.

End Stateful.

(** ** The spec's grouping of the catalog *)

Definition heptatonic_modes : list string :=
  ["Major (Ionian)"; "Dorian"; "Phrygian"; "Lydian"; "Mixolydian";
   "Minor (Aeolian)"; "Locrian"].

Definition pentatonic_modes : list string :=
  ["Pentatonic Major"; "Pentatonic Minor"].

Definition blues_mode : string := "Blues".

(** An enharmonic pair name, written from its two spellings. *)
Definition pair_name (X Y : string) : string := X ++ "/" ++ Y.

(** A name with no slash in it. *)
Definition bare (s : string) : Prop := Py.has_char slash s = false.

(** The canonical name at a pitch-class index. *)
Definition canonical_name (k : Z) : option string :=
  if (k <? 0) then None else nth_error NOTES (Z.to_nat k).

(** The first halves of the pair names of the table. *)
Definition bare_sharps : list string := ["C#"; "D#"; "F#"; "G#"; "A#"].

(** ** The shape of an interval pattern *)

(** Strictly increasing, above [lo] and below 12. *)
Fixpoint increasing (lo : Z) (intervals : list Z) : bool :=
  match intervals with
  | [] => true
  | iv :: rest => (lo <? iv) && (iv <? 12) && increasing iv rest
  end.

(** An interval pattern starts at 0 and climbs inside the octave. *)
Definition pattern_ok (intervals : list Z) : bool :=
  match intervals with
  | 0 :: rest => increasing 0 rest
  | _ => false
  end.

(** ** The mode descriptions *)

Definition mode_explanations : list (string * string) :=
  [("Major (Ionian)",
    "The standard major scale with a bright, happy sound.");
   ("Dorian",
    "Minor scale with a raised 6th, has a jazzy, slightly minor sound.");
   ("Phrygian",
    "Dark minor scale with a lowered 2nd, has a Spanish or Middle Eastern feel.");
   ("Lydian",
    "Major scale with a raised 4th, has a dreamy, floating quality.");
   ("Mixolydian",
    "Major scale with a lowered 7th, common in rock, blues and jazz.");
   ("Minor (Aeolian)",
    "The standard natural minor scale with a melancholic sound.");
   ("Locrian",
    "The darkest mode with a lowered 2nd and 5th, used in jazz and metal.");
   ("Pentatonic Major",
    "Five-note scale derived from the major scale, very common in folk and pop.");
   ("Pentatonic Minor",
    "Five-note scale derived from the minor scale, popular in rock, blues, and many forms of music.");
   ("Blues",
    "Minor pentatonic with an added b5 'blue note', the foundation of blues music.")].

(** The description shown under the grid:
    [mode_explanations.get(selected_mode, '')]. *)
Definition mode_explanation (selected_mode : string) : string :=
  Py.get selected_mode mode_explanations "".

(** ** Names used in the statements *)

(** The text of a name before its first slash, [name.split('/')[0]]. *)
Definition first_piece (name : string) : string :=
  hd "" (Py.split slash name).

(** The names [start_index] finds a pitch class for. *)
Definition resolves (name : string) : Prop :=
  In name NOTES \/ In (first_piece name) NOTES.

(** A list started again from its [n]-th element. *)
Definition rotate {A : Type} (n : nat) (l : list A) : list A :=
  skipn n l ++ firstn n l.

(** ** Proof automation *)

(** Unfolds the store-passing operations and reduces what they leave. *)
Ltac run_store :=
  cbv beta iota delta
      [Stateful.get_scale_notes Stateful.start_index Stateful.bindM
       Stateful.read_NOTES Stateful.read_MODES Stateful.lift Stateful.alloc
       Stateful.initial Stateful.g_NOTES Stateful.g_MODES Stateful.heap].

(** Settles [incl] between two lists written out. *)
Ltac listed_incl :=
  let x := fresh "x" in
  let H := fresh "H" in
  intros x H; cbn in H |- *;
  repeat (destruct H as [<- | H]; [tauto |]); contradiction.

(** * Properties *)

(** ** The primitives *)

Lemma contains_In (x : string) (xs : list string) :
  Py.contains x xs = true <-> In x xs.
Proof.
  unfold Py.contains. rewrite existsb_exists. split.
  - intros [y [Hy Heq]]. apply String.eqb_eq in Heq. now subst.
  - intros H. exists x. split; [assumption | apply String.eqb_refl].
Qed.

Lemma contains_not_In (x : string) (xs : list string) :
  Py.contains x xs = false <-> ~ In x xs.
Proof.
  rewrite <- contains_In. destruct (Py.contains x xs); split; intros H;
    try reflexivity; try discriminate; try (intros H'; discriminate).
  exfalso. now apply H.
Qed.

Lemma has_char_app (c : ascii) (a b : string) :
  Py.has_char c (a ++ b) = Py.has_char c a || Py.has_char c b.
Proof.
  induction a as [| d a IH]; simpl.
  - reflexivity.
  - rewrite IH. now rewrite orb_assoc.
Qed.

Lemma split_not_nil (sep : ascii) (s : string) : Py.split sep s <> [].
Proof.
  destruct s as [| c s]; simpl.
  - discriminate.
  - destruct (Ascii.eqb c sep); [discriminate |].
    destruct (Py.split sep s); discriminate.
Qed.

(** Without a separator in it, a string splits into itself. *)
Lemma split_bare (sep : ascii) (s : string) :
  Py.has_char sep s = false -> Py.split sep s = [s].
Proof.
  induction s as [| c s IH]; simpl; intros H.
  - reflexivity.
  - apply orb_false_iff in H. destruct H as [Hc Hs].
    rewrite Hc. now rewrite IH by exact Hs.
Qed.

(** The first piece ends at the first separator. *)
Lemma split_app (sep : ascii) (x y : string) :
  Py.has_char sep x = false ->
  Py.split sep (x ++ String sep y) = x :: Py.split sep y.
Proof.
  induction x as [| c x IH]; simpl; intros H.
  - now rewrite Ascii.eqb_refl.
  - apply orb_false_iff in H. destruct H as [Hc Hx].
    rewrite Hc. now rewrite IH by exact Hx.
Qed.

Lemma split_pair (X Y : string) :
  bare X -> bare Y -> Py.split slash (pair_name X Y) = [X; Y].
Proof.
  intros HX HY. unfold pair_name. simpl.
  change (String "/" Y) with (String slash Y).
  rewrite split_app by exact HX. now rewrite split_bare by exact HY.
Qed.

Lemma has_char_pair (X Y : string) :
  Py.has_char slash (pair_name X Y) = true.
Proof.
  unfold pair_name. rewrite has_char_app. simpl.
  now rewrite orb_true_r.
Qed.

(** [index] finds an element that is there, at a position inside the
    list, and the element at that position is the one asked for. *)
Lemma index_In (x : string) (xs : list string) :
  In x xs ->
  exists i, Py.index x xs = Ok i /\ 0 <= i < Z.of_nat (length xs)
            /\ nth_error xs (Z.to_nat i) = Some x.
Proof.
  induction xs as [| y xs IH]; intros Hin.
  - destruct Hin.
  - cbn [Py.index]. destruct (String.eqb_spec y x) as [-> | Hne].
    + exists 0. cbn. repeat split; lia.
    + destruct Hin as [Heq | Hin]; [contradiction |].
      destruct (IH Hin) as [i [Hi [Hr Hn]]]. rewrite Hi. cbn [bind].
      exists (i + 1). cbn [length]. repeat split; try lia.
      replace (Z.to_nat (i + 1)) with (S (Z.to_nat i)) by lia.
      exact Hn.
Qed.

Lemma index_Ok (x : string) (xs : list string) (i : Z) :
  Py.index x xs = Ok i ->
  0 <= i < Z.of_nat (length xs) /\ nth_error xs (Z.to_nat i) = Some x.
Proof.
  revert i. induction xs as [| y xs IH]; intros i H.
  - discriminate.
  - cbn [Py.index] in H. destruct (String.eqb_spec y x) as [-> | Hne].
    + injection H as <-. cbn. split; [lia | reflexivity].
    + destruct (Py.index x xs) as [j |] eqn:Hj; [| discriminate].
      cbn [bind] in H. injection H as <-.
      destruct (IH j eq_refl) as [Hr Hn]. cbn [length]. split; [lia |].
      replace (Z.to_nat (j + 1)) with (S (Z.to_nat j)) by lia.
      exact Hn.
Qed.

(** Subscripting inside the list gives the element there. *)
Lemma getitem_in_range (A : Type) (xs : list A) (k : Z) :
  0 <= k < Z.of_nat (length xs) ->
  exists a, nth_error xs (Z.to_nat k) = Some a /\ Py.getitem xs k = Ok a.
Proof.
  intros Hk. unfold Py.getitem.
  assert (Hneg : (k <? 0) = false) by (apply Z.ltb_ge; lia).
  assert (Hlen : (Z.of_nat (length xs) <=? k) = false) by (apply Z.leb_gt; lia).
  cbv zeta. rewrite Hneg. cbv iota. rewrite Hneg, Hlen. cbn [orb].
  destruct (nth_error xs (Z.to_nat k)) as [a |] eqn:Hn.
  - exists a. split; reflexivity.
  - exfalso. apply nth_error_None in Hn. lia.
Qed.

Lemma getitem_first (A : Type) (a : A) (xs : list A) :
  Py.getitem (a :: xs) 0 = Ok a.
Proof.
  destruct (getitem_in_range _ (a :: xs) 0) as [b [Hn Hg]].
  - cbn [length]. lia.
  - change (Some a = Some b) in Hn. congruence.
Qed.

Lemma getitem_second (A : Type) (a b : A) (xs : list A) :
  Py.getitem (a :: b :: xs) 1 = Ok b.
Proof.
  destruct (getitem_in_range _ (a :: b :: xs) 1) as [c [Hn Hg]].
  - cbn [length]. lia.
  - change (Some b = Some c) in Hn. congruence.
Qed.

Lemma length_NOTES : Z.of_nat (length NOTES) = 12.
Proof. reflexivity. Qed.

Lemma canonical_name_nth (k : Z) :
  0 <= k -> canonical_name k = nth_error NOTES (Z.to_nat k).
Proof.
  intros Hk. unfold canonical_name.
  now replace (k <? 0) with false by (symmetry; apply Z.ltb_ge; lia).
Qed.

(** Reduced modulo 12, every index names a note. *)
Lemma getitem_NOTES_mod (k : Z) :
  exists name, canonical_name (k mod 12) = Some name
               /\ Py.getitem NOTES (k mod 12) = Ok name.
Proof.
  assert (Hr : 0 <= k mod 12 < 12) by (apply Z.mod_pos_bound; lia).
  destruct (getitem_in_range _ NOTES (k mod 12)) as [a [Hn Hg]].
  - rewrite length_NOTES. exact Hr.
  - exists a. rewrite canonical_name_nth by lia. now split.
Qed.

Lemma comprehension_length (A B : Type) (f : A -> result B)
      (xs : list A) (ys : list B) :
  comprehension f xs = Ok ys -> length ys = length xs.
Proof.
  revert ys. induction xs as [| x xs IH]; intros ys H; cbn in H.
  - injection H as <-. reflexivity.
  - destruct (f x) as [y |]; [| discriminate]. cbn in H.
    destruct (comprehension f xs) as [ys' |]; [| discriminate]. cbn in H.
    injection H as <-. cbn. now rewrite (IH ys' eq_refl).
Qed.

Lemma comprehension_total (A B : Type) (f : A -> result B) (xs : list A) :
  (forall x, In x xs -> succeeds (f x)) -> succeeds (comprehension f xs).
Proof.
  induction xs as [| x xs IH]; intros H.
  - now exists [].
  - destruct (H x (or_introl eq_refl)) as [y Hy].
    destruct IH as [ys Hys]; [intros z Hz; apply H; now right |].
    exists (y :: ys). cbn. rewrite Hy. cbn. now rewrite Hys.
Qed.

(** ** Resolving a note name *)

Lemma start_index_canonical (p : string) :
  In p NOTES -> start_index p = Py.index p NOTES.
Proof.
  intros H. unfold start_index. apply contains_In in H. now rewrite H.
Qed.

(** A name outside the table is looked up by its first piece. *)
Lemma start_index_fallback (name : string) :
  ~ In name NOTES ->
  start_index name = Py.index (hd "" (Py.split slash name)) NOTES.
Proof.
  intros H. unfold start_index. apply contains_not_In in H. rewrite H.
  destruct (Py.split slash name) as [| first rest] eqn:Hs.
  - exfalso. exact (split_not_nil _ _ Hs).
  - now rewrite getitem_first.
Qed.

(** From a resolved open string, every fret has a note. *)
Lemma get_note_at_position_resolved (string_note : string) (i fret : Z) :
  start_index string_note = Ok i ->
  exists name, canonical_name ((i + fret) mod 12) = Some name
               /\ get_note_at_position string_note fret = Ok name.
Proof.
  intros H. unfold get_note_at_position. rewrite H. cbn [bind].
  apply getitem_NOTES_mod.
Qed.

(** ** Notes along a string *)

(** C4: for each of the 12 canonical names [p] and each fret [f] from 0
    to 14, [get_note_at_position p f] returns the canonical name at index
    [(index p + f) mod 12]; fret 0 gives the open-string note back, and
    string E at fret 14 wraps round the octave to F#/Gb. *)
Theorem get_note_at_position_canonical (p : string) (f : Z) :
  In p NOTES ->
  0 <= f <= 14 ->
  (exists i name,
      Py.index p NOTES = Ok i
      /\ canonical_name ((i + f) mod 12) = Some name
      /\ get_note_at_position p f = Ok name)
  /\ get_note_at_position p 0 = Ok p
  /\ get_note_at_position "E" 14 = Ok "F#/Gb".
Proof.
  intros Hp _.
  destruct (index_In _ _ Hp) as [i [Hi [Hr Hn]]].
  assert (Hs : start_index p = Ok i)
    by (now rewrite start_index_canonical).
  rewrite length_NOTES in Hr.
  split; [| split].
  - destruct (get_note_at_position_resolved _ _ f Hs) as [name [Hc Hg]].
    now exists i, name.
  - destruct (get_note_at_position_resolved _ _ 0 Hs) as [name [Hc Hg]].
    rewrite Hg. f_equal.
    rewrite Z.add_0_r, Z.mod_small in Hc by lia.
    rewrite canonical_name_nth in Hc by lia. congruence.
  - reflexivity.
Qed.

Lemma get_note_at_position_canonical_witness :
  In "G#/Ab" NOTES /\ 0 <= 9 <= 14
  /\ get_note_at_position "G#/Ab" 9 = Ok "F"
  /\ get_note_at_position "G#/Ab" 0 = Ok "G#/Ab".
Proof.
  assert (Hin : In "G#/Ab" NOTES) by (cbn; tauto).
  assert (Hf : 0 <= 9 <= 14) by lia.
  destruct (get_note_at_position_canonical "G#/Ab" 9 Hin Hf)
    as [[i [name [Hi [Hc Hg]]]] [H0 _]].
  split; [exact Hin |]. split; [exact Hf |]. split; [| exact H0].
  rewrite Hg. f_equal.
  vm_compute in Hi. injection Hi as <-. vm_compute in Hc. congruence.
Defined.

Lemma first_half_is_sharp (X Y : string) :
  bare X -> In (pair_name X Y) NOTES -> In X bare_sharps.
Proof.
  intros HX Hin.
  assert (Hsplit : forall name,
             name = pair_name X Y ->
             Py.split slash name = X :: Py.split slash Y).
  { intros name ->. unfold pair_name. cbn [append].
    change (String "/" Y) with (String slash Y).
    now rewrite split_app by exact HX. }
  cbn in Hin.
  repeat (destruct Hin as [Hin | Hin];
          [apply Hsplit in Hin; cbn in Hin; injection Hin as <- Hrest;
           first [ cbn; tauto
                 | exfalso; exact (split_not_nil _ _ (eq_sym Hrest)) ] |]).
  contradiction.
Qed.

Lemma bare_sharp_raises (sharp : string) (fret : Z) :
  In sharp bare_sharps -> get_note_at_position sharp fret = Raise ValueError.
Proof.
  intros H. cbn in H.
  repeat (destruct H as [<- | H]; [reflexivity |]).
  contradiction.
Qed.

(** C3, as the code has it: an open string given by a name of the table
    (an enharmonic pair name such as C#/Db included), or by a name whose
    text before its first slash is a name of the table, resolves at every
    fret from 0 up to the canonical name at index [(index + fret) mod 12];
    the bare first half X of a pair name X/Y of the table (C#, D#, F#, G#,
    A#) is not in the table and its lookup raises. *)
Theorem get_note_at_position_by_first_piece
        (p rest X Y : string) (fret : Z) :
  In p NOTES ->
  0 <= fret ->
  bare X ->
  In (pair_name X Y) NOTES ->
  (exists i name,
      Py.index p NOTES = Ok i
      /\ canonical_name ((i + fret) mod 12) = Some name
      /\ get_note_at_position p fret = Ok name
      /\ (bare p -> get_note_at_position (pair_name p rest) fret = Ok name))
  /\ get_note_at_position X fret = Raise ValueError.
Proof.
  intros Hp _ HX Hpair.
  destruct (index_In _ _ Hp) as [i [Hi [Hr Hn]]].
  assert (Hs : start_index p = Ok i)
    by (now rewrite start_index_canonical).
  split.
  - destruct (get_note_at_position_resolved _ _ fret Hs) as [name [Hc Hg]].
    exists i, name. repeat split; try assumption.
    intros Hbare.
    assert (Hout : ~ In (pair_name p rest) NOTES).
    { intros Hin. apply (first_half_is_sharp _ _ Hbare) in Hin.
      cbn in Hin, Hp.
      repeat (destruct Hin as [<- | Hin];
              [repeat (destruct Hp as [Hp | Hp]; [discriminate Hp |]);
               contradiction |]).
      contradiction. }
    unfold get_note_at_position.
    rewrite (start_index_fallback _ Hout).
    unfold pair_name. cbn [append].
    change (String "/" rest) with (String slash rest).
    rewrite split_app by exact Hbare. cbn [hd].
    rewrite Hi. cbn [bind].
    unfold get_note_at_position in Hg. rewrite Hs in Hg. exact Hg.
  - apply bare_sharp_raises. exact (first_half_is_sharp _ _ HX Hpair).
Qed.

Lemma get_note_at_position_by_first_piece_witness :
  get_note_at_position "C#/Db" 3 = Ok "E"
  /\ get_note_at_position "C#" 3 = Raise ValueError.
Proof.
  assert (Hin : In "C#/Db" NOTES) by (cbn; tauto).
  assert (Hf : 0 <= 3) by lia.
  assert (HX : bare "C#") by reflexivity.
  assert (Hpair : In (pair_name "C#" "Db") NOTES) by (cbn; tauto).
  destruct (get_note_at_position_by_first_piece "C#/Db" "" "C#" "Db" 3
              Hin Hf HX Hpair) as [[i [name [Hi [Hc [Hg _]]]]] Hraise].
  split; [| exact Hraise].
  rewrite Hg. f_equal.
  vm_compute in Hi. injection Hi as <-. vm_compute in Hc. congruence.
Defined.

(** C3 fails at the open string C#, the first half of the pair C#/Db: the
    lookup raises at fret 0. *)
Lemma get_note_at_position_bare_sharp_raises :
  In (pair_name "C#" "Db") NOTES
  /\ 0 <= 0
  /\ get_note_at_position "C#" 0 = Raise ValueError
  /\ ~ succeeds (get_note_at_position "C#" 0).
Proof.
  split; [cbn; tauto |]. split; [lia |]. split; [reflexivity |].
  intros [name H]. discriminate H.
Qed.

(** ** Scales *)

(** C6: C major is C D E F G A B and A minor pentatonic is A C D E G, in
    that order. *)
Theorem get_scale_notes_examples :
  get_scale_notes "C" "Major (Ionian)"
  = Ok ["C"; "D"; "E"; "F"; "G"; "A"; "B"]
  /\ get_scale_notes "A" "Pentatonic Minor" = Ok ["A"; "C"; "D"; "E"; "G"].
Proof. split; reflexivity. Qed.

Lemma lookup_keys (V : Type) (k : string) (d : list (string * V)) :
  In k (Py.keys d) -> exists v, Py.lookup k d = Ok v /\ In (k, v) d.
Proof.
  induction d as [| [k' v'] d IH]; intros H.
  - destruct H.
  - cbn [Py.lookup]. destruct (String.eqb_spec k' k) as [-> | Hne].
    + exists v'. split; [reflexivity | now left].
    + destruct H as [Heq | H]; [cbn in Heq; contradiction |].
      destruct (IH H) as [v [Hv Hin]]. exists v. split; [exact Hv | now right].
Qed.

(** A resolved root and a mode of the catalog give a scale, one note per
    interval. *)
Lemma get_scale_notes_resolved (root_note mode : string) (i : Z)
      (intervals : list Z) :
  start_index root_note = Ok i ->
  Py.lookup mode MODES = Ok intervals ->
  exists l, get_scale_notes root_note mode = Ok l
            /\ comprehension
                 (fun interval => Py.getitem NOTES ((i + interval) mod 12))
                 intervals = Ok l
            /\ length l = length intervals.
Proof.
  intros Hs Hm. unfold get_scale_notes. rewrite Hs, Hm. cbn [bind].
  destruct (comprehension_total _ _
              (fun interval => Py.getitem NOTES ((i + interval) mod 12))
              intervals) as [l Hl].
  - intros iv _. destruct (getitem_NOTES_mod (i + iv)) as [name [_ Hg]].
    now exists name.
  - exists l. split; [exact Hl |]. split; [exact Hl |].
    exact (comprehension_length _ _ _ _ _ Hl).
Qed.

Lemma heptatonic_intervals (mode : string) (intervals : list Z) :
  In mode heptatonic_modes ->
  Py.lookup mode MODES = Ok intervals -> length intervals = 7%nat.
Proof.
  intros H Hm. cbn in H.
  repeat (destruct H as [<- | H];
          [cbn in Hm; injection Hm as <-; reflexivity |]).
  contradiction.
Qed.

Lemma pentatonic_intervals (mode : string) (intervals : list Z) :
  In mode pentatonic_modes ->
  Py.lookup mode MODES = Ok intervals -> length intervals = 5%nat.
Proof.
  intros H Hm. cbn in H.
  repeat (destruct H as [<- | H];
          [cbn in Hm; injection Hm as <-; reflexivity |]).
  contradiction.
Qed.

(** C2, as the code has it: for a root note that resolves and a mode of
    the catalog, [get_scale_notes] returns one note per interval of the
    mode: 7 for the heptatonic modes, 5 for the two pentatonic modes and
    6 for Blues. *)
Theorem get_scale_notes_length (root_note mode : string) :
  succeeds (start_index root_note) ->
  In mode (Py.keys MODES) ->
  exists intervals l,
    Py.lookup mode MODES = Ok intervals
    /\ get_scale_notes root_note mode = Ok l
    /\ length l = length intervals
    /\ (In mode heptatonic_modes -> length l = 7%nat)
    /\ (In mode pentatonic_modes -> length l = 5%nat)
    /\ (mode = blues_mode -> length l = 6%nat).
Proof.
  intros [i Hs] Hmode.
  destruct (lookup_keys _ _ _ Hmode) as [intervals [Hm _]].
  destruct (get_scale_notes_resolved _ _ _ _ Hs Hm) as [l [Hl [_ Hlen]]].
  exists intervals, l. repeat split; try assumption; rewrite Hlen.
  - intros H. exact (heptatonic_intervals _ _ H Hm).
  - intros H. exact (pentatonic_intervals _ _ H Hm).
  - intros ->. cbn in Hm. injection Hm as <-. reflexivity.
Qed.

Lemma get_scale_notes_length_witness :
  exists l, get_scale_notes "F#/Gb" "Blues" = Ok l /\ length l = 6%nat.
Proof.
  assert (Hroot : succeeds (start_index "F#/Gb"))
    by (exists 6; reflexivity).
  assert (Hmode : In "Blues" (Py.keys MODES)) by (cbn; tauto).
  destruct (get_scale_notes_length "F#/Gb" "Blues" Hroot Hmode)
    as [intervals [l [_ [Hl [_ [_ [_ Hblues]]]]]]].
  exists l. split; [exact Hl | exact (Hblues eq_refl)].
Defined.

(** C2 fails at Blues: the scale of C Blues has six notes, not five. *)
Lemma get_scale_notes_blues_has_six :
  In "C" NOTES
  /\ In blues_mode (Py.keys MODES)
  /\ exists l, get_scale_notes "C" blues_mode = Ok l
               /\ length l = 6%nat /\ length l <> 5%nat.
Proof.
  split; [cbn; tauto |]. split; [cbn; tauto |].
  exists ["C"; "D#/Eb"; "F"; "F#/Gb"; "G"; "A#/Bb"].
  split; [reflexivity |]. split; [reflexivity | discriminate].
Qed.

(** ** The patterns of the catalog *)

Lemma increasing_bounds (lo : Z) (intervals : list Z) :
  increasing lo intervals = true ->
  Forall (fun iv => lo < iv < 12) intervals.
Proof.
  revert lo. induction intervals as [| iv rest IH]; intros lo H.
  - constructor.
  - cbn in H. apply andb_true_iff in H. destruct H as [H Hrest].
    apply andb_true_iff in H. destruct H as [Hlo Hhi].
    apply Z.ltb_lt in Hlo. apply Z.ltb_lt in Hhi.
    constructor; [lia |].
    apply (Forall_impl (P := fun x => iv < x < 12)); [| now apply IH].
    intros x Hx. lia.
Qed.

Lemma increasing_NoDup (lo : Z) (intervals : list Z) :
  increasing lo intervals = true -> NoDup intervals.
Proof.
  revert lo. induction intervals as [| iv rest IH]; intros lo H.
  - constructor.
  - cbn in H. apply andb_true_iff in H. destruct H as [_ Hrest].
    constructor; [| now apply (IH iv)].
    intros Hin. pose proof (increasing_bounds _ _ Hrest) as Hall.
    rewrite Forall_forall in Hall. specialize (Hall iv Hin). lia.
Qed.

Lemma pattern_ok_inv (intervals : list Z) :
  pattern_ok intervals = true ->
  exists rest, intervals = 0 :: rest
               /\ NoDup intervals
               /\ Forall (fun iv => 0 <= iv < 12) intervals.
Proof.
  destruct intervals as [| iv rest]; [discriminate |].
  destruct iv; try discriminate. cbn [pattern_ok]. intros H.
  exists rest. split; [reflexivity |]. split.
  - constructor; [| exact (increasing_NoDup _ _ H)].
    intros Hin. pose proof (increasing_bounds _ _ H) as Hall.
    rewrite Forall_forall in Hall. specialize (Hall 0 Hin). lia.
  - constructor; [lia |].
    apply (Forall_impl (P := fun x => 0 < x < 12));
      [| exact (increasing_bounds _ _ H)].
    intros x Hx. lia.
Qed.

(** Every pattern of the catalog has that shape. *)
Lemma MODES_patterns_ok : forallb (fun m => pattern_ok (snd m)) MODES = true.
Proof. reflexivity. Qed.

Lemma catalog_pattern_ok (mode : string) (intervals : list Z) :
  In (mode, intervals) MODES -> pattern_ok intervals = true.
Proof.
  intros H. pose proof MODES_patterns_ok as Hall.
  rewrite forallb_forall in Hall. exact (Hall _ H).
Qed.

(** ** Distinct notes *)

Lemma NoDup_NOTES : NoDup NOTES.
Proof.
  unfold NOTES.
  repeat (constructor;
          [cbn; intros H;
           repeat (destruct H as [H | H]; [discriminate H |]);
           exact H |]).
  constructor.
Qed.

(** Two indices of the table with the same name are the same index. *)
Lemma canonical_name_inj (j k : Z) (name : string) :
  0 <= j < 12 -> 0 <= k < 12 ->
  canonical_name j = Some name -> canonical_name k = Some name -> j = k.
Proof.
  intros Hj Hk Hnj Hnk.
  rewrite canonical_name_nth in Hnj by lia.
  rewrite canonical_name_nth in Hnk by lia.
  pose proof NoDup_NOTES as Hnd. rewrite NoDup_nth_error in Hnd.
  assert (Heq : Z.to_nat j = Z.to_nat k).
  { apply Hnd.
    - change (length NOTES) with 12%nat. lia.
    - congruence. }
  lia.
Qed.

(** Inside the octave, different intervals from one start land on
    different pitch classes. *)
Lemma shift_mod_inj (start a b : Z) :
  0 <= a < 12 -> 0 <= b < 12 ->
  (start + a) mod 12 = (start + b) mod 12 -> a = b.
Proof.
  intros Ha Hb H.
  pose proof (Z.div_mod (start + a) 12) as Hda.
  pose proof (Z.div_mod (start + b) 12) as Hdb.
  pose proof (Z.mod_pos_bound (start + a) 12) as Hra.
  lia.
Qed.

(** Every note a comprehension over intervals yields comes from one of
    the intervals. *)
Lemma scale_note_origin (start : Z) (intervals : list Z) (l : list string) :
  comprehension
    (fun interval => Py.getitem NOTES ((start + interval) mod 12))
    intervals = Ok l ->
  forall name, In name l ->
    exists iv, In iv intervals
               /\ canonical_name ((start + iv) mod 12) = Some name.
Proof.
  revert l. induction intervals as [| iv rest IH]; intros l H name Hin.
  - cbn in H. injection H as <-. destruct Hin.
  - cbn [comprehension] in H.
    destruct (getitem_NOTES_mod (start + iv)) as [y [Hc Hy]].
    rewrite Hy in H. cbn [bind] in H.
    destruct (comprehension _ rest) as [ys |] eqn:Hys; [| discriminate].
    cbn [bind] in H. injection H as <-.
    destruct Hin as [<- | Hin].
    + exists iv. split; [now left | exact Hc].
    + destruct (IH ys eq_refl name Hin) as [iv' [Hiv' Hc']].
      exists iv'. split; [now right | exact Hc'].
Qed.

Lemma scale_NoDup (start : Z) (intervals : list Z) (l : list string) :
  NoDup intervals ->
  Forall (fun iv => 0 <= iv < 12) intervals ->
  comprehension
    (fun interval => Py.getitem NOTES ((start + interval) mod 12))
    intervals = Ok l ->
  NoDup l.
Proof.
  revert l. induction intervals as [| iv rest IH]; intros l Hnd Hall H.
  - cbn in H. injection H as <-. constructor.
  - cbn [comprehension] in H.
    destruct (getitem_NOTES_mod (start + iv)) as [y [Hc Hy]].
    rewrite Hy in H. cbn [bind] in H.
    destruct (comprehension _ rest) as [ys |] eqn:Hys; [| discriminate].
    cbn [bind] in H. injection H as <-.
    inversion Hnd as [| ? ? Hnotin Hnd']; subst.
    inversion Hall as [| ? ? Hiv Hall']; subst.
    constructor; [| exact (IH ys Hnd' Hall' eq_refl)].
    intros Hin.
    destruct (scale_note_origin _ _ _ Hys y Hin) as [iv' [Hiv' Hc']].
    rewrite Forall_forall in Hall'. pose proof (Hall' iv' Hiv') as Hr.
    assert (Heq : (start + iv') mod 12 = (start + iv) mod 12).
    { apply (canonical_name_inj _ _ y); try assumption;
        apply Z.mod_pos_bound; lia. }
    apply shift_mod_inj in Heq; try lia. subst iv'. contradiction.
Qed.

(** C10: for each of the 12 canonical names as root and each mode of the
    catalog, the scale [get_scale_notes] returns starts with the root's
    name and holds no note twice. *)
Theorem get_scale_notes_root_first_distinct (root_note mode : string) :
  In root_note NOTES ->
  In mode (Py.keys MODES) ->
  exists l, get_scale_notes root_note mode = Ok l
            /\ hd_error l = Some root_note
            /\ NoDup l.
Proof.
  intros Hroot Hmode.
  destruct (index_In _ _ Hroot) as [i [Hi [Hr Hn]]].
  rewrite length_NOTES in Hr.
  assert (Hs : start_index root_note = Ok i)
    by (now rewrite start_index_canonical).
  destruct (lookup_keys _ _ _ Hmode) as [intervals [Hm Hin]].
  destruct (get_scale_notes_resolved _ _ _ _ Hs Hm) as [l [Hl [Hcomp _]]].
  destruct (pattern_ok_inv _ (catalog_pattern_ok _ _ Hin))
    as [rest [-> [Hnd Hall]]].
  exists l. split; [exact Hl |]. split.
  - cbn [comprehension] in Hcomp.
    destruct (getitem_NOTES_mod (i + 0)) as [y [Hc Hy]].
    rewrite Hy in Hcomp. cbn [bind] in Hcomp.
    destruct (comprehension _ rest) as [ys |]; [| discriminate].
    cbn [bind] in Hcomp. injection Hcomp as <-. cbn [hd_error]. f_equal.
    rewrite Z.add_0_r, Z.mod_small in Hc by lia.
    rewrite canonical_name_nth in Hc by lia. congruence.
  - exact (scale_NoDup _ _ _ Hnd Hall Hcomp).
Qed.

Lemma get_scale_notes_root_first_distinct_witness :
  exists l, get_scale_notes "A#/Bb" "Locrian" = Ok l
            /\ hd_error l = Some "A#/Bb" /\ NoDup l.
Proof.
  assert (Hroot : In "A#/Bb" NOTES) by (cbn; tauto).
  assert (Hmode : In "Locrian" (Py.keys MODES)) by (cbn; tauto).
  exact (get_scale_notes_root_first_distinct "A#/Bb" "Locrian" Hroot Hmode).
Defined.

(** ** Membership in a scale *)

(** A name with a slash in it splits into two pieces at least. *)
Lemma split_two_pieces (sep : ascii) (s : string) :
  Py.has_char sep s = true ->
  exists first second rest, Py.split sep s = first :: second :: rest.
Proof.
  induction s as [| c s IH]; cbn [Py.has_char Py.split]; intros H.
  - discriminate.
  - destruct (Ascii.eqb c sep) eqn:Hc.
    + destruct (Py.split sep s) as [| second rest] eqn:Hs.
      * exfalso. exact (split_not_nil _ _ Hs).
      * now exists "", second, rest.
    + cbn [orb] in H. destruct (IH H) as [first [second [rest Hs]]].
      rewrite Hs. now exists (String c first), second, rest.
Qed.

(** The membership test never raises. *)
Lemma is_note_in_scale_total (note : string) (scale_notes : list string) :
  succeeds (is_note_in_scale note scale_notes).
Proof.
  unfold is_note_in_scale.
  destruct (Py.has_char slash note) eqn:Hslash.
  - destruct (split_two_pieces _ _ Hslash) as [first [second [rest Hs]]].
    rewrite Hs, getitem_first, getitem_second. cbn [bind].
    destruct (Py.contains first scale_notes); eexists; reflexivity.
  - eexists. reflexivity.
Qed.

Lemma is_note_in_scale_pair (X Y : string) (scale_notes : list string) :
  bare X -> bare Y ->
  is_note_in_scale (pair_name X Y) scale_notes
  = Ok (Py.contains X scale_notes || Py.contains Y scale_notes).
Proof.
  intros HX HY. unfold is_note_in_scale.
  rewrite has_char_pair, (split_pair _ _ HX HY).
  rewrite getitem_first, getitem_second. cbn [bind].
  now destruct (Py.contains X scale_notes).
Qed.

Lemma is_note_in_scale_bare (note : string) (scale_notes : list string) :
  bare note ->
  is_note_in_scale note scale_notes = Ok (Py.contains note scale_notes).
Proof.
  intros H. unfold is_note_in_scale. now rewrite H.
Qed.

(** C5: for a note written as a pair X/Y, [is_note_in_scale] is true
    exactly when X or Y is an element of the scale list as it stands; for
    a note without a slash, exactly when the note is an element of the
    scale list. *)
Theorem is_note_in_scale_rule (X Y note : string) (scale_notes : list string) :
  bare X -> bare Y -> bare note ->
  (exists b, is_note_in_scale (pair_name X Y) scale_notes = Ok b
             /\ (b = true <-> In X scale_notes \/ In Y scale_notes))
  /\ (exists b, is_note_in_scale note scale_notes = Ok b
                /\ (b = true <-> In note scale_notes)).
Proof.
  intros HX HY Hnote. split.
  - exists (Py.contains X scale_notes || Py.contains Y scale_notes).
    split; [exact (is_note_in_scale_pair _ _ _ HX HY) |].
    rewrite orb_true_iff. now rewrite !contains_In.
  - exists (Py.contains note scale_notes).
    split; [exact (is_note_in_scale_bare _ _ Hnote) |].
    apply contains_In.
Qed.

Lemma is_note_in_scale_rule_witness :
  is_note_in_scale (pair_name "C#" "Db") ["Db"; "F"] = Ok true
  /\ is_note_in_scale "G" ["Db"; "F"] = Ok false.
Proof.
  destruct (is_note_in_scale_rule "C#" "Db" "G" ["Db"; "F"]
              eq_refl eq_refl eq_refl)
    as [[b1 [H1 Hb1]] [b2 [H2 Hb2]]].
  split.
  - rewrite H1. f_equal. apply Hb1. right. now left.
  - rewrite H2. f_equal. destruct b2; [| reflexivity].
    destruct (proj1 Hb2 eq_refl) as [H | [H | []]]; discriminate H.
Defined.

(** C1 against the code: asked about the pair name C#/Db, or about either
    of its spellings, [is_note_in_scale] answers false on the scale list
    that holds C#/Db; in the grid of A major, whose scale holds C#/Db, the
    C#/Db at fret 2 of the B string is left unmarked. *)
Theorem is_note_in_scale_misses_pair_names :
  let scale := ["C#/Db"; "D"; "E"; "F"; "G"; "A"; "A#/Bb"] in
  In "C#/Db" scale
  /\ is_note_in_scale "C#/Db" scale = Ok false
  /\ is_note_in_scale "C#" scale = Ok false
  /\ is_note_in_scale "Db" scale = Ok false
  /\ exists a_major,
      get_scale_notes "A" "Major (Ionian)" = Ok a_major
      /\ In "C#/Db" a_major
      /\ fret_cell "A" a_major "B" 2 = Ok ("C#/Db", Plain).
Proof.
  cbv zeta. split; [cbn; tauto |]. repeat (split; [reflexivity |]).
  exists ["A"; "B"; "C#/Db"; "D"; "E"; "F#/Gb"; "G#/Ab"].
  split; [reflexivity |]. split; [cbn; tauto | reflexivity].
Qed.

(** ** The root test *)

Lemma is_root_iff (note root_note : string) :
  is_root note root_note = true
  <-> note = root_note
      \/ (Py.has_char slash note = true
          /\ In root_note (Py.split slash note)).
Proof.
  unfold is_root.
  now rewrite orb_true_iff, andb_true_iff, String.eqb_eq, contains_In.
Qed.

(** C7: [is_root] is true exactly when the note is the root name itself,
    or the note is a pair X/Y and the root name is X or is Y; the pair
    C#/Db is a root for the root C#/Db, and D is not. *)
Theorem is_root_rule (X Y note root_note : string) :
  bare X -> bare Y -> bare note ->
  (is_root (pair_name X Y) root_note = true
   <-> pair_name X Y = root_note \/ root_note = X \/ root_note = Y)
  /\ (is_root note root_note = true <-> note = root_note)
  /\ is_root "C#/Db" "C#/Db" = true
  /\ is_root "D" "C#/Db" = false.
Proof.
  intros HX HY Hnote. split; [| split; [| split; reflexivity]].
  - rewrite is_root_iff, has_char_pair, (split_pair _ _ HX HY). cbn [In].
    split.
    + intros [H | [_ [H | [H | []]]]]; auto.
    + intros [H | [H | H]]; auto.
  - rewrite is_root_iff. unfold bare in Hnote. rewrite Hnote. split.
    + intros [H | [H _]]; [exact H | discriminate H].
    + intros H. now left.
Qed.

Lemma is_root_rule_witness :
  is_root (pair_name "F#" "Gb") "Gb" = true
  /\ is_root "E" "Gb" = false.
Proof.
  destruct (is_root_rule "F#" "Gb" "E" "Gb" eq_refl eq_refl eq_refl)
    as [Hpair [Hbare _]].
  split.
  - apply Hpair. right. now right.
  - apply not_true_is_false. intros H.
    apply Hbare in H. discriminate H.
Defined.

(** ** The inputs the selection controls allow *)

Lemma catalog_sizes :
  length display_notes = 12%nat /\ length MODES = 10%nat
  /\ length GUITAR_TUNING = 6%nat /\ length (range NUM_FRETS) = 15%nat.
Proof. repeat split. Qed.

(** Every display name is mapped to a name of the table. *)
Lemma normalize_canonical (selected_note : string) :
  In selected_note display_notes ->
  exists root_note, normalize selected_note = Ok root_note
                    /\ In root_note NOTES.
Proof.
  intros H. cbn in H.
  repeat (destruct H as [<- | H];
          [eexists; split; [reflexivity | cbn; tauto] |]).
  contradiction.
Qed.

Lemma GUITAR_TUNING_canonical (open_string : string) :
  In open_string GUITAR_TUNING -> In open_string NOTES.
Proof.
  intros H. cbn in H.
  repeat (destruct H as [<- | H]; [cbn; tauto |]).
  contradiction.
Qed.

Lemma get_note_at_position_total (p : string) (fret : Z) :
  In p NOTES -> succeeds (get_note_at_position p fret).
Proof.
  intros Hp. destruct (index_In _ _ Hp) as [i [Hi _]].
  rewrite <- start_index_canonical in Hi by exact Hp.
  destruct (get_note_at_position_resolved _ _ fret Hi) as [name [_ Hg]].
  now exists name.
Qed.

Lemma get_scale_notes_total (p mode : string) :
  In p NOTES -> In mode (Py.keys MODES) -> succeeds (get_scale_notes p mode).
Proof.
  intros Hp Hmode. destruct (index_In _ _ Hp) as [i [Hi _]].
  rewrite <- start_index_canonical in Hi by exact Hp.
  destruct (lookup_keys _ _ _ Hmode) as [intervals [Hm _]].
  destruct (get_scale_notes_resolved _ _ _ _ Hi Hm) as [l [Hl _]].
  now exists l.
Qed.

Lemma fret_cell_total (root_note : string) (scale_notes : list string)
      (open_string : string) (fret : Z) :
  In open_string NOTES ->
  succeeds (fret_cell root_note scale_notes open_string fret).
Proof.
  intros Hs. unfold fret_cell.
  destruct (get_note_at_position_total _ fret Hs) as [note ->]. cbn [bind].
  destruct (is_note_in_scale_total note scale_notes) as [b ->]. cbn [bind].
  destruct b; [destruct (is_root note root_note) |]; eexists; reflexivity.
Qed.

Lemma display_fretboard_total (root_note mode : string) :
  In root_note NOTES -> In mode (Py.keys MODES) ->
  succeeds (display_fretboard root_note mode).
Proof.
  intros Hroot Hmode. unfold display_fretboard.
  destruct (get_scale_notes_total _ _ Hroot Hmode) as [scale_notes ->].
  cbn [bind]. apply comprehension_total. intros open_string Hs.
  apply comprehension_total. intros fret _.
  apply fret_cell_total. now apply GUITAR_TUNING_canonical.
Qed.

(** C8: for a root chosen among the 12 display names and mapped to its
    internal name, or an open string of the tuning, and a mode of the
    10-mode catalog, [get_note_at_position] and [get_scale_notes] return
    without raising, and so does the whole grid: the failed lookup of a
    note name cannot happen. *)
Theorem selected_inputs_never_raise
        (selected_note mode open_string : string) (fret : Z) :
  In selected_note display_notes ->
  In mode (Py.keys MODES) ->
  In open_string GUITAR_TUNING ->
  0 <= fret ->
  exists root_note,
    normalize selected_note = Ok root_note
    /\ succeeds (get_note_at_position root_note fret)
    /\ succeeds (get_scale_notes root_note mode)
    /\ succeeds (get_note_at_position open_string fret)
    /\ succeeds (get_scale_notes open_string mode)
    /\ succeeds (display_fretboard root_note mode).
Proof.
  intros Hsel Hmode Hstring _.
  destruct (normalize_canonical _ Hsel) as [root_note [Hn Hroot]].
  pose proof (GUITAR_TUNING_canonical _ Hstring) as Hopen.
  exists root_note. split; [exact Hn |].
  split; [now apply get_note_at_position_total |].
  split; [now apply get_scale_notes_total |].
  split; [now apply get_note_at_position_total |].
  split; [now apply get_scale_notes_total |].
  now apply display_fretboard_total.
Qed.

Lemma selected_inputs_never_raise_witness :
  exists root_note,
    normalize "D#" = Ok root_note
    /\ succeeds (get_note_at_position root_note 14)
    /\ succeeds (get_scale_notes root_note "Phrygian")
    /\ succeeds (get_note_at_position "B" 14)
    /\ succeeds (get_scale_notes "B" "Phrygian")
    /\ succeeds (display_fretboard root_note "Phrygian").
Proof.
  assert (Hsel : In "D#" display_notes) by (cbn; tauto).
  assert (Hmode : In "Phrygian" (Py.keys MODES)) by (cbn; tauto).
  assert (Hstring : In "B" GUITAR_TUNING) by (cbn; tauto).
  assert (Hfret : 0 <= 14) by lia.
  exact (selected_inputs_never_raise "D#" "Phrygian" "B" 14
           Hsel Hmode Hstring Hfret).
Defined.

(** ** Repeated calls *)

(** A call either builds one list, whatever lists are there already, or
    raises and leaves the store as it was; which of the two, and the list
    or the exception, depends on the tables alone. *)
Lemma get_scale_notes_run (notes : list string)
      (modes : list (string * list Z)) (root_note mode : string) :
  (exists l, forall h,
      Stateful.get_scale_notes root_note mode
        (Stateful.Build_store notes modes h)
      = (Ok (length h), Stateful.Build_store notes modes (h ++ [l])))
  \/ (exists e, forall h,
         Stateful.get_scale_notes root_note mode
           (Stateful.Build_store notes modes h)
         = (Raise e, Stateful.Build_store notes modes h)).
Proof.
  run_store.
  destruct (Py.contains root_note notes); run_store.
  - destruct (Py.index root_note notes) as [start | e]; run_store;
      [| right; exists e; reflexivity].
    destruct (Py.lookup mode modes) as [intervals | e]; run_store;
      [| right; exists e; reflexivity].
    destruct (comprehension _ intervals) as [l | e]; run_store;
      [left; exists l; reflexivity | right; exists e; reflexivity].
  - destruct (Py.getitem (Py.split slash root_note) 0) as [first | e];
      run_store; [| right; exists e; reflexivity].
    destruct (Py.index first notes) as [start | e]; run_store;
      [| right; exists e; reflexivity].
    destruct (Py.lookup mode modes) as [intervals | e]; run_store;
      [| right; exists e; reflexivity].
    destruct (comprehension _ intervals) as [l | e]; run_store;
      [left; exists l; reflexivity | right; exists e; reflexivity].
Qed.

Lemma deref_new (notes : list string) (modes : list (string * list Z))
      (h : list (list string)) (l : list string) :
  Stateful.deref (length h) (Stateful.Build_store notes modes (h ++ [l]))
  = Some l.
Proof.
  unfold Stateful.deref. cbn [Stateful.heap].
  rewrite nth_error_app2 by apply Nat.le_refl.
  now rewrite Nat.sub_diag.
Qed.

Lemma deref_kept (notes : list string) (modes : list (string * list Z))
      (h : list (list string)) (l old : list string) (addr : nat) :
  Stateful.deref addr (Stateful.Build_store notes modes h) = Some old ->
  Stateful.deref addr (Stateful.Build_store notes modes (h ++ [l]))
  = Some old.
Proof.
  unfold Stateful.deref. cbn [Stateful.heap]. intros H.
  rewrite nth_error_app1; [exact H |].
  apply nth_error_Some. congruence.
Qed.

(** On the store the module body leaves, a call returns what the pure
    function returns. *)
Lemma get_scale_notes_initial (root_note mode : string) :
  Stateful.observe (Stateful.get_scale_notes root_note mode Stateful.initial)
  = get_scale_notes root_note mode.
Proof.
  unfold get_scale_notes, start_index. run_store.
  destruct (Py.contains root_note NOTES); run_store.
  - destruct (Py.index root_note NOTES) as [start | e]; run_store;
      [| reflexivity].
    cbn [bind].
    destruct (Py.lookup mode MODES) as [intervals | e]; run_store;
      [| reflexivity].
    cbn [bind].
    destruct (comprehension _ intervals) as [l | e]; reflexivity.
  - destruct (Py.getitem (Py.split slash root_note) 0) as [first | e];
      run_store; [| reflexivity].
    cbn [bind].
    destruct (Py.index first NOTES) as [start | e]; run_store;
      [| reflexivity].
    cbn [bind].
    destruct (Py.lookup mode MODES) as [intervals | e]; run_store;
      [| reflexivity].
    cbn [bind].
    destruct (comprehension _ intervals) as [l | e]; reflexivity.
Qed.

(** What one call does to a store: it builds one list and appends it, or
    raises and leaves the store alone; the list or the exception is the
    same on every store with the same tables. *)
Lemma get_scale_notes_effect (s : Stateful.store) (root_note mode : string) :
  (exists l, forall s',
      Stateful.same_tables s s' ->
      Stateful.get_scale_notes root_note mode s'
      = (Ok (length (Stateful.heap s')),
         Stateful.Build_store (Stateful.g_NOTES s) (Stateful.g_MODES s)
                              (Stateful.heap s' ++ [l])))
  \/ (exists e, forall s',
         Stateful.same_tables s s' ->
         Stateful.get_scale_notes root_note mode s' = (Raise e, s')).
Proof.
  destruct s as [notes modes h]. cbn [Stateful.g_NOTES Stateful.g_MODES].
  destruct (get_scale_notes_run notes modes root_note mode)
    as [[l Hrun] | [e Hrun]].
  - left. exists l. intros [notes' modes' h'] [Hn Hm].
    cbn in Hn, Hm. subst notes' modes'. exact (Hrun h').
  - right. exists e. intros [notes' modes' h'] [Hn Hm].
    cbn in Hn, Hm. subst notes' modes'. exact (Hrun h').
Qed.

Lemma same_tables_refl (s : Stateful.store) : Stateful.same_tables s s.
Proof. split; reflexivity. Qed.

Lemma same_tables_trans (s1 s2 s3 : Stateful.store) :
  Stateful.same_tables s1 s2 -> Stateful.same_tables s2 s3 ->
  Stateful.same_tables s1 s3.
Proof. intros [H1 H2] [H3 H4]. split; congruence. Qed.

(** A call keeps the tables and every list built before it. *)
Lemma get_scale_notes_keeps (s : Stateful.store) (root_note mode : string) :
  Stateful.same_tables s (snd (Stateful.get_scale_notes root_note mode s))
  /\ forall addr old,
      Stateful.deref addr s = Some old ->
      Stateful.deref addr (snd (Stateful.get_scale_notes root_note mode s))
      = Some old.
Proof.
  destruct (get_scale_notes_effect s root_note mode) as [[l H] | [e H]];
    rewrite (H s (same_tables_refl s)); cbn [snd].
  - split; [split; reflexivity |]. intros addr old Hold.
    destruct s as [notes modes h]. now apply deref_kept.
  - split; [apply same_tables_refl | tauto].
Qed.

(** So does any series of calls. *)
Lemma run_calls_keeps (calls : list (string * string)) (s : Stateful.store) :
  Stateful.same_tables s (Stateful.run_calls calls s)
  /\ forall addr old,
      Stateful.deref addr s = Some old ->
      Stateful.deref addr (Stateful.run_calls calls s) = Some old.
Proof.
  revert s. induction calls as [| [r m] rest IH]; intros s.
  - split; [apply same_tables_refl | tauto].
  - cbn [Stateful.run_calls].
    destruct (get_scale_notes_keeps s r m) as [Ht Hk].
    destruct (IH (snd (Stateful.get_scale_notes r m s))) as [Ht' Hk'].
    split; [exact (same_tables_trans _ _ _ Ht Ht') |].
    intros addr old Hold. apply Hk', Hk, Hold.
Qed.

(** What the caller sees depends on the tables alone, not on the lists
    the store holds. *)
Lemma observe_same_tables (s s' : Stateful.store) (root_note mode : string) :
  Stateful.same_tables s s' ->
  Stateful.observe (Stateful.get_scale_notes root_note mode s')
  = Stateful.observe (Stateful.get_scale_notes root_note mode s).
Proof.
  intros Hsame.
  destruct (get_scale_notes_effect s root_note mode) as [[l H] | [e H]];
    rewrite (H s' Hsame), (H s (same_tables_refl s)).
  - cbn [Stateful.observe]. now rewrite !deref_new.
  - reflexivity.
Qed.

(** C9: [get_scale_notes] keeps no state: any two calls with the same
    root and mode, made on stores that have the same tables and hold
    whatever lists, give the same outcome, the same notes in the same
    order or the same exception; so does a call repeated after any series
    of other calls.  A call leaves the tables as they are and every list
    built before it untouched; it adds the one list it returns, or
    nothing when it raises.  On the module's tables the outcome is that
    of the pure function, whatever the store holds besides. *)
Theorem get_scale_notes_repeatable (s s' : Stateful.store)
        (between : list (string * string)) (root_note mode : string) :
  Stateful.same_tables s s' ->
  let first_call := Stateful.get_scale_notes root_note mode s in
  let later := Stateful.run_calls between (snd first_call) in
  let second_call := Stateful.get_scale_notes root_note mode later in
  Stateful.observe (Stateful.get_scale_notes root_note mode s')
  = Stateful.observe first_call
  /\ Stateful.observe second_call = Stateful.observe first_call
  /\ Stateful.same_tables s (snd first_call)
  /\ Stateful.same_tables s later
  /\ Stateful.same_tables s (snd second_call)
  /\ (forall addr old,
         Stateful.deref addr s = Some old ->
         Stateful.deref addr (snd first_call) = Some old
         /\ Stateful.deref addr later = Some old
         /\ Stateful.deref addr (snd second_call) = Some old)
  /\ (forall l,
         Stateful.observe first_call = Ok l ->
         Stateful.heap (snd first_call) = (Stateful.heap s ++ [l])%list)
  /\ (forall e,
         Stateful.observe first_call = Raise e -> snd first_call = s)
  /\ (Stateful.same_tables Stateful.initial s ->
      Stateful.observe first_call = get_scale_notes root_note mode).
Proof.
  intros Hsame. cbv zeta.
  destruct (get_scale_notes_keeps s root_note mode) as [Ht1 Hk1].
  destruct (run_calls_keeps
              between (snd (Stateful.get_scale_notes root_note mode s)))
    as [Ht2 Hk2].
  pose proof (same_tables_trans _ _ _ Ht1 Ht2) as Hlater.
  destruct (get_scale_notes_keeps
              (Stateful.run_calls
                 between (snd (Stateful.get_scale_notes root_note mode s)))
              root_note mode) as [Ht3 Hk3].
  split; [exact (observe_same_tables _ _ _ _ Hsame) |].
  split; [exact (observe_same_tables _ _ _ _ Hlater) |].
  split; [exact Ht1 |]. split; [exact Hlater |].
  split; [exact (same_tables_trans _ _ _ Hlater Ht3) |].
  split.
  { intros addr old Hold. split; [exact (Hk1 _ _ Hold) |].
    split; [exact (Hk2 _ _ (Hk1 _ _ Hold)) |].
    exact (Hk3 _ _ (Hk2 _ _ (Hk1 _ _ Hold))). }
  split; [| split].
  - intros l Hl.
    destruct (get_scale_notes_effect s root_note mode) as [[l' H] | [e H]];
      rewrite (H s (same_tables_refl s)) in Hl |- *.
    + cbn [Stateful.observe] in Hl. destruct s as [notes modes h].
      cbn [Stateful.g_NOTES Stateful.g_MODES Stateful.heap] in Hl |- *.
      rewrite deref_new in Hl. injection Hl as <-. reflexivity.
    + discriminate Hl.
  - intros e He.
    destruct (get_scale_notes_effect s root_note mode) as [[l' H] | [e' H]];
      rewrite (H s (same_tables_refl s)) in He |- *.
    + cbn [Stateful.observe] in He. destruct s as [notes modes h].
      cbn [Stateful.g_NOTES Stateful.g_MODES Stateful.heap] in He.
      rewrite deref_new in He. discriminate He.
    + reflexivity.
  - intros Hinit.
    rewrite (observe_same_tables _ _ root_note mode Hinit).
    apply get_scale_notes_initial.
Qed.

Lemma get_scale_notes_repeatable_witness :
  let s := Stateful.Build_store NOTES MODES [["E"; "G"]] in
  let s' := Stateful.Build_store NOTES MODES [["B"]; []; ["F"; "A"; "C"]] in
  let first_call := Stateful.get_scale_notes "A" "Pentatonic Minor" s in
  let later :=
    Stateful.run_calls [("C", "Major (Ionian)"); ("D", "Dorian")]
                       (snd first_call) in
  let second_call :=
    Stateful.get_scale_notes "A" "Pentatonic Minor" later in
  Stateful.observe (Stateful.get_scale_notes "A" "Pentatonic Minor" s')
  = Ok ["A"; "C"; "D"; "E"; "G"]
  /\ Stateful.observe second_call = Ok ["A"; "C"; "D"; "E"; "G"]
  /\ Stateful.deref 0 (snd second_call) = Some ["E"; "G"].
Proof.
  cbv zeta.
  destruct (get_scale_notes_repeatable
              (Stateful.Build_store NOTES MODES [["E"; "G"]])
              (Stateful.Build_store NOTES MODES [["B"]; []; ["F"; "A"; "C"]])
              [("C", "Major (Ionian)"); ("D", "Dorian")]
              "A" "Pentatonic Minor" (conj eq_refl eq_refl))
    as [Hother [Hlater [_ [_ [_ [Hkept [_ [_ Hpure]]]]]]]].
  rewrite Hother, Hlater, (Hpure (conj eq_refl eq_refl)).
  split; [reflexivity |]. split; [reflexivity |].
  exact (proj2 (proj2 (Hkept 0%nat ["E"; "G"] eq_refl))).
Defined.

(** * Further properties of the engine *)

(** ** Lookups that fail, lookups that come back *)

Lemma index_absent (x : string) (xs : list string) :
  ~ In x xs -> Py.index x xs = Raise ValueError.
Proof.
  induction xs as [| y xs IH]; intros Hn.
  - reflexivity.
  - cbn [Py.index]. destruct (String.eqb_spec y x) as [-> | Hne].
    + exfalso. apply Hn. now left.
    + rewrite IH; [reflexivity |]. intros H. apply Hn. now right.
Qed.

Lemma lookup_absent (V : Type) (k : string) (d : list (string * V)) :
  ~ In k (Py.keys d) -> Py.lookup k d = Raise KeyError.
Proof.
  induction d as [| [k' v'] d IH]; intros Hn.
  - reflexivity.
  - cbn [Py.lookup]. destruct (String.eqb_spec k' k) as [-> | Hne].
    + exfalso. apply Hn. now left.
    + apply IH. intros H. apply Hn. now right.
Qed.

Lemma lookup_In (V : Type) (k : string) (d : list (string * V)) (v : V) :
  Py.lookup k d = Ok v -> In (k, v) d.
Proof.
  induction d as [| [k' v'] d IH]; intros H.
  - discriminate H.
  - cbn [Py.lookup] in H. destruct (String.eqb_spec k' k) as [-> | Hne].
    + injection H as <-. now left.
    + right. now apply IH.
Qed.

Lemma canonical_name_In (k : Z) (name : string) :
  canonical_name k = Some name -> In name NOTES.
Proof.
  unfold canonical_name. destruct (k <? 0); [discriminate |].
  apply nth_error_In.
Qed.

(** The position of the name at index [k] is [k]. *)
Lemma index_canonical_name (k : Z) (name : string) :
  0 <= k < 12 -> canonical_name k = Some name -> Py.index name NOTES = Ok k.
Proof.
  intros Hk Hc.
  destruct (index_In _ _ (canonical_name_In _ _ Hc)) as [i [Hi [Hr Hn]]].
  rewrite length_NOTES in Hr. rewrite Hi. f_equal.
  apply (canonical_name_inj _ _ name); try assumption.
  now rewrite canonical_name_nth by lia.
Qed.

Lemma start_index_canonical_name (k : Z) (name : string) :
  0 <= k < 12 -> canonical_name k = Some name -> start_index name = Ok k.
Proof.
  intros Hk Hc.
  rewrite start_index_canonical by exact (canonical_name_In _ _ Hc).
  now apply index_canonical_name.
Qed.

Lemma start_index_bounds (name : string) (i : Z) :
  start_index name = Ok i -> 0 <= i < 12.
Proof.
  unfold start_index. intros H.
  destruct (Py.contains name NOTES).
  - apply index_Ok in H. rewrite length_NOTES in H. tauto.
  - destruct (Py.getitem (Py.split slash name) 0) as [first |];
      [| discriminate].
    cbn [bind] in H. apply index_Ok in H. rewrite length_NOTES in H. tauto.
Qed.

Lemma start_index_resolves (name : string) :
  resolves name -> exists i, start_index name = Ok i /\ 0 <= i < 12.
Proof.
  intros H.
  assert (Hs : succeeds (start_index name)).
  { destruct (Py.contains name NOTES) eqn:Hc.
    - apply contains_In in Hc.
      destruct (index_In _ _ Hc) as [i [Hi _]].
      exists i. now rewrite start_index_canonical.
    - apply contains_not_In in Hc.
      destruct H as [H | H]; [contradiction |].
      destruct (index_In _ _ H) as [i [Hi _]].
      exists i. now rewrite start_index_fallback. }
  destruct Hs as [i Hi]. exists i. split; [exact Hi |].
  exact (start_index_bounds _ _ Hi).
Qed.

Lemma start_index_unresolved (name : string) :
  ~ resolves name -> start_index name = Raise ValueError.
Proof.
  intros H. unfold resolves in H.
  rewrite start_index_fallback by tauto.
  apply index_absent. tauto.
Qed.

Lemma start_index_Ok_resolves (name : string) (i : Z) :
  start_index name = Ok i -> resolves name.
Proof.
  intros H. unfold resolves.
  destruct (Py.contains name NOTES) eqn:Hc.
  - left. now apply contains_In.
  - right. apply contains_not_In in Hc.
    rewrite start_index_fallback in H by exact Hc.
    apply index_Ok in H. destruct H as [_ H].
    exact (nth_error_In _ _ H).
Qed.

(** What a successful call returns, read backwards. *)
Lemma get_note_at_position_inv (string_note : string) (fret : Z)
      (note : string) :
  get_note_at_position string_note fret = Ok note ->
  exists i, start_index string_note = Ok i
            /\ 0 <= i < 12
            /\ canonical_name ((i + fret) mod 12) = Some note.
Proof.
  intros H. unfold get_note_at_position in H.
  destruct (start_index string_note) as [i | e] eqn:Hs; [| discriminate H].
  cbn [bind] in H. exists i. split; [reflexivity |].
  split; [exact (start_index_bounds _ _ Hs) |].
  destruct (getitem_NOTES_mod (i + fret)) as [name [Hc Hg]]. congruence.
Qed.

Lemma get_note_at_position_from_index (string_note : string) (i fret : Z) :
  start_index string_note = Ok i ->
  get_note_at_position string_note fret
  = Py.getitem NOTES ((i + fret) mod 12).
Proof.
  intros H. unfold get_note_at_position. now rewrite H.
Qed.

(** ** Moving along a string *)

(** X1: twelve frets up the string the same note comes back, and with it
    the same cell of the grid; an open string that does not resolve raises
    at both frets alike. *)
Theorem get_note_at_position_octave (string_note : string) (fret : Z) :
  get_note_at_position string_note (fret + 12)
  = get_note_at_position string_note fret
  /\ forall root_note scale_notes,
      fret_cell root_note scale_notes string_note (fret + 12)
      = fret_cell root_note scale_notes string_note fret.
Proof.
  assert (H : get_note_at_position string_note (fret + 12)
              = get_note_at_position string_note fret).
  { unfold get_note_at_position.
    destruct (start_index string_note) as [i | e]; [| reflexivity].
    cbn [bind].
    replace (i + (fret + 12)) with (i + fret + 1 * 12) by lia.
    now rewrite Z.mod_add by lia. }
  split; [exact H |].
  intros root_note scale_notes. unfold fret_cell. now rewrite H.
Qed.

(** X2: frets add up: the note [g] frets above the note found [f] frets
    up a string is the note [f + g] frets up that string. *)
Theorem get_note_at_position_compose (string_note note : string) (f g : Z) :
  get_note_at_position string_note f = Ok note ->
  get_note_at_position note g = get_note_at_position string_note (f + g).
Proof.
  intros H. destruct (get_note_at_position_inv _ _ _ H) as [i [Hs [Hi Hc]]].
  assert (Hr : 0 <= (i + f) mod 12 < 12) by (apply Z.mod_pos_bound; lia).
  rewrite (get_note_at_position_from_index _ _ _
             (start_index_canonical_name _ _ Hr Hc)).
  rewrite (get_note_at_position_from_index _ _ _ Hs).
  rewrite Z.add_mod_idemp_l by lia. f_equal. f_equal. lia.
Qed.

Lemma get_note_at_position_compose_witness :
  get_note_at_position "G" 3 = Ok "A#/Bb"
  /\ get_note_at_position "A#/Bb" 11 = get_note_at_position "G" 14.
Proof.
  assert (H : get_note_at_position "G" 3 = Ok "A#/Bb") by reflexivity.
  split; [exact H |].
  exact (get_note_at_position_compose "G" "A#/Bb" 3 11 H).
Defined.

(** X3: going down undoes going up: from the note found [fret] frets up
    an open string of the table, [fret] frets down is the open string. *)
Theorem get_note_at_position_back (string_note note : string) (fret : Z) :
  In string_note NOTES ->
  get_note_at_position string_note fret = Ok note ->
  get_note_at_position note (- fret) = Ok string_note.
Proof.
  intros Hin H.
  destruct (get_note_at_position_inv _ _ _ H) as [i [Hs [Hi Hc]]].
  assert (Hr : 0 <= (i + fret) mod 12 < 12) by (apply Z.mod_pos_bound; lia).
  rewrite (get_note_at_position_from_index _ _ _
             (start_index_canonical_name _ _ Hr Hc)).
  rewrite Z.add_mod_idemp_l by lia.
  replace (i + fret + - fret) with i by lia.
  rewrite Z.mod_small by lia.
  rewrite start_index_canonical in Hs by exact Hin.
  apply index_Ok in Hs. destruct Hs as [Hlen Hn].
  destruct (getitem_in_range _ NOTES i Hlen) as [a [Ha Hg]]. congruence.
Qed.

Lemma get_note_at_position_back_witness :
  get_note_at_position "B" 14 = Ok "C#/Db"
  /\ get_note_at_position "C#/Db" (- 14) = Ok "B".
Proof.
  assert (Hin : In "B" NOTES) by (cbn; tauto).
  assert (H : get_note_at_position "B" 14 = Ok "C#/Db") by reflexivity.
  split; [exact H |].
  exact (get_note_at_position_back "B" "C#/Db" 14 Hin H).
Defined.

(** X4: [get_note_at_position] returns exactly for the names that are in
    the table or whose text before the first slash is; what it returns is
    a name of the table; for any other name it raises [ValueError], at
    every fret, and it raises nothing else. *)
Theorem get_note_at_position_outcomes (string_note : string) (fret : Z) :
  (resolves string_note ->
   exists note, get_note_at_position string_note fret = Ok note
                /\ In note NOTES)
  /\ (~ resolves string_note ->
      get_note_at_position string_note fret = Raise ValueError)
  /\ (forall e, get_note_at_position string_note fret = Raise e ->
                e = ValueError /\ ~ resolves string_note).
Proof.
  assert (Hyes : resolves string_note ->
                 exists note, get_note_at_position string_note fret = Ok note
                              /\ In note NOTES).
  { intros H. destruct (start_index_resolves _ H) as [i [Hs _]].
    destruct (get_note_at_position_resolved _ _ fret Hs) as [note [Hc Hg]].
    exists note. split; [exact Hg | exact (canonical_name_In _ _ Hc)]. }
  assert (Hno : ~ resolves string_note ->
                get_note_at_position string_note fret = Raise ValueError).
  { intros H. unfold get_note_at_position.
    now rewrite (start_index_unresolved _ H). }
  split; [exact Hyes |]. split; [exact Hno |].
  intros e He.
  assert (Hres : ~ resolves string_note).
  { intros H. destruct (Hyes H) as [note [Hg _]]. congruence. }
  split; [| exact Hres].
  rewrite (Hno Hres) in He. congruence.
Qed.

Lemma get_note_at_position_outcomes_witness :
  (exists note, get_note_at_position "D/sharp" 2 = Ok note /\ In note NOTES)
  /\ get_note_at_position "Db" 2 = Raise ValueError.
Proof.
  destruct (get_note_at_position_outcomes "D/sharp" 2) as [Hyes _].
  destruct (get_note_at_position_outcomes "Db" 2) as [_ [Hno _]].
  split.
  - apply Hyes. right. cbn. tauto.
  - apply Hno. intros [H | H]; cbn in H;
      repeat (destruct H as [H | H]; [discriminate H |]); exact H.
Defined.

(** ** How a scale is built *)

Lemma comprehension_ext (A B : Type) (f g : A -> result B) (xs : list A) :
  (forall x, In x xs -> f x = g x) ->
  comprehension f xs = comprehension g xs.
Proof.
  induction xs as [| x xs IH]; intros H.
  - reflexivity.
  - cbn [comprehension]. rewrite (H x (or_introl eq_refl)).
    rewrite IH; [reflexivity |]. intros z Hz. apply H. now right.
Qed.

Lemma scale_notes_canonical (start : Z) (intervals : list Z)
      (l : list string) :
  comprehension
    (fun interval => Py.getitem NOTES ((start + interval) mod 12))
    intervals = Ok l ->
  Forall (fun name => In name NOTES) l.
Proof.
  intros H. apply Forall_forall. intros name Hin.
  destruct (scale_note_origin _ _ _ H name Hin) as [iv [_ Hc]].
  exact (canonical_name_In _ _ Hc).
Qed.

(** X5: what [get_scale_notes] does with its two arguments: a root that
    does not resolve raises [ValueError] whatever the mode is, a mode
    that is not in the catalog raises [KeyError] once the root has
    resolved, and otherwise the call returns a list of names of the
    table. *)
Theorem get_scale_notes_outcomes (root_note mode : string) :
  (~ resolves root_note -> get_scale_notes root_note mode = Raise ValueError)
  /\ (resolves root_note -> ~ In mode (Py.keys MODES) ->
      get_scale_notes root_note mode = Raise KeyError)
  /\ (resolves root_note -> In mode (Py.keys MODES) ->
      exists l, get_scale_notes root_note mode = Ok l
                /\ Forall (fun name => In name NOTES) l).
Proof.
  split; [| split].
  - intros H. unfold get_scale_notes.
    now rewrite (start_index_unresolved _ H).
  - intros H Hmode. destruct (start_index_resolves _ H) as [i [Hs _]].
    unfold get_scale_notes. rewrite Hs. cbn [bind].
    now rewrite (lookup_absent _ _ _ Hmode).
  - intros H Hmode. destruct (start_index_resolves _ H) as [i [Hs _]].
    destruct (lookup_keys _ _ _ Hmode) as [intervals [Hm _]].
    destruct (get_scale_notes_resolved _ _ _ _ Hs Hm) as [l [Hl [Hcomp _]]].
    exists l. split; [exact Hl | exact (scale_notes_canonical _ _ _ Hcomp)].
Qed.

Lemma get_scale_notes_outcomes_witness :
  get_scale_notes "C#" "Harmonic Minor" = Raise ValueError
  /\ get_scale_notes "C#/Db" "Harmonic Minor" = Raise KeyError
  /\ exists l, get_scale_notes "C#/Db" "Lydian" = Ok l
               /\ Forall (fun name => In name NOTES) l.
Proof.
  assert (Hno : ~ resolves "C#").
  { intros [H | H]; cbn in H;
      repeat (destruct H as [H | H]; [discriminate H |]); exact H. }
  assert (Hyes : resolves "C#/Db") by (left; cbn; tauto).
  assert (Hmode : ~ In "Harmonic Minor" (Py.keys MODES)).
  { intros H. cbn in H.
    repeat (destruct H as [H | H]; [discriminate H |]). exact H. }
  assert (Hlydian : In "Lydian" (Py.keys MODES)) by (cbn; tauto).
  split; [| split].
  - exact (proj1 (get_scale_notes_outcomes "C#" "Harmonic Minor") Hno).
  - exact (proj1 (proj2 (get_scale_notes_outcomes "C#/Db" "Harmonic Minor"))
             Hyes Hmode).
  - exact (proj2 (proj2 (get_scale_notes_outcomes "C#/Db" "Lydian"))
             Hyes Hlydian).
Defined.

(** X6: a scale is what one reads off a string tuned to the root, at the
    frets the mode's pattern lists, in the order of the pattern; when the
    root does not resolve both raise alike. *)
Theorem get_scale_notes_as_frets (root_note mode : string)
        (intervals : list Z) :
  Py.lookup mode MODES = Ok intervals ->
  get_scale_notes root_note mode
  = comprehension (get_note_at_position root_note) intervals.
Proof.
  intros Hm. unfold get_scale_notes.
  destruct (start_index root_note) as [i | e] eqn:Hs; cbn [bind].
  - rewrite Hm. cbn [bind]. apply comprehension_ext. intros iv _.
    symmetry. exact (get_note_at_position_from_index _ _ iv Hs).
  - destruct (pattern_ok_inv _ (catalog_pattern_ok _ _ (lookup_In _ _ _ _ Hm)))
      as [rest [-> _]].
    cbn [comprehension]. unfold get_note_at_position at 1.
    now rewrite Hs.
Qed.

Lemma get_scale_notes_as_frets_witness :
  get_scale_notes "E" "Blues"
  = comprehension (get_note_at_position "E") [0; 3; 5; 6; 7; 10].
Proof.
  exact (get_scale_notes_as_frets "E" "Blues" [0; 3; 5; 6; 7; 10] eq_refl).
Defined.

(** Shifting the start by [k] shifts every note of the list by [k]
    frets. *)
Lemma shift_comprehension (i k : Z) (intervals : list Z) (l : list string) :
  comprehension
    (fun interval => Py.getitem NOTES ((i + interval) mod 12))
    intervals = Ok l ->
  comprehension
    (fun interval => Py.getitem NOTES (((i + k) mod 12 + interval) mod 12))
    intervals
  = comprehension (fun note => get_note_at_position note k) l.
Proof.
  revert l. induction intervals as [| iv rest IH]; intros l H.
  - cbn in H. injection H as <-. reflexivity.
  - cbn [comprehension] in H.
    destruct (getitem_NOTES_mod (i + iv)) as [y [Hc Hy]].
    rewrite Hy in H. cbn [bind] in H.
    destruct (comprehension _ rest) as [ys |] eqn:Hys; [| discriminate].
    cbn [bind] in H. injection H as <-.
    cbn [comprehension]. rewrite (IH ys eq_refl).
    assert (Hr : 0 <= (i + iv) mod 12 < 12) by (apply Z.mod_pos_bound; lia).
    rewrite (get_note_at_position_from_index _ _ k
               (start_index_canonical_name _ _ Hr Hc)).
    rewrite !Z.add_mod_idemp_l by lia.
    replace (i + k + iv) with (i + iv + k) by lia. reflexivity.
Qed.

(** X7: transposing commutes with taking the scale: the scale of the note
    [k] frets above a root is the scale of the root with every note moved
    up [k] frets. *)
Theorem get_scale_notes_transpose (root_note moved_root mode : string)
        (k : Z) (l : list string) :
  get_scale_notes root_note mode = Ok l ->
  get_note_at_position root_note k = Ok moved_root ->
  get_scale_notes moved_root mode
  = comprehension (fun note => get_note_at_position note k) l.
Proof.
  intros Hl Hmoved.
  destruct (get_note_at_position_inv _ _ _ Hmoved) as [i [Hs [Hi Hc]]].
  assert (Hr : 0 <= (i + k) mod 12 < 12) by (apply Z.mod_pos_bound; lia).
  unfold get_scale_notes in Hl |- *.
  rewrite Hs in Hl. cbn [bind] in Hl.
  rewrite (start_index_canonical_name _ _ Hr Hc). cbn [bind].
  destruct (Py.lookup mode MODES) as [intervals | e]; [| discriminate Hl].
  cbn [bind] in Hl |- *.
  exact (shift_comprehension _ k _ _ Hl).
Qed.

Lemma get_scale_notes_transpose_witness :
  get_scale_notes "G" "Dorian"
  = comprehension (fun note => get_note_at_position note 7)
                  ["C"; "D"; "D#/Eb"; "F"; "G"; "A"; "A#/Bb"].
Proof.
  exact (get_scale_notes_transpose "C" "G" "Dorian" 7
           ["C"; "D"; "D#/Eb"; "F"; "G"; "A"; "A#/Bb"] eq_refl eq_refl).
Defined.

(** ** What the catalog encodes *)

Lemma increasing_sorted (lo : Z) (intervals : list Z) :
  increasing lo intervals = true -> StronglySorted Z.lt intervals.
Proof.
  revert lo. induction intervals as [| iv rest IH]; intros lo H.
  - constructor.
  - cbn in H. apply andb_true_iff in H. destruct H as [_ Hrest].
    constructor; [exact (IH iv Hrest) |].
    apply (Forall_impl (P := fun x => iv < x < 12));
      [| exact (increasing_bounds _ _ Hrest)].
    intros x Hx. lia.
Qed.

(** X8: every pattern stored in [MODES] starts at 0, climbs strictly and
    stays inside one octave, and has five to seven intervals. *)
Theorem MODES_patterns_climb (mode : string) (intervals : list Z) :
  Py.lookup mode MODES = Ok intervals ->
  hd_error intervals = Some 0
  /\ StronglySorted Z.lt intervals
  /\ Forall (fun iv => 0 <= iv <= 11) intervals
  /\ (5 <= length intervals <= 7)%nat.
Proof.
  intros Hm. pose proof (lookup_In _ _ _ _ Hm) as Hin.
  pose proof (catalog_pattern_ok _ _ Hin) as Hok.
  split; [| split; [| split]].
  - destruct (pattern_ok_inv _ Hok) as [rest [-> _]]. reflexivity.
  - destruct intervals as [| iv rest]; [discriminate Hok |].
    destruct iv; try discriminate Hok. cbn [pattern_ok] in Hok.
    constructor; [exact (increasing_sorted _ _ Hok) |].
    apply (Forall_impl (P := fun x => 0 < x < 12));
      [| exact (increasing_bounds _ _ Hok)].
    intros x Hx. lia.
  - destruct (pattern_ok_inv _ Hok) as [rest [_ [_ Hall]]].
    apply (Forall_impl (P := fun x => 0 <= x < 12)); [| exact Hall].
    intros x Hx. lia.
  - cbn in Hin.
    repeat (destruct Hin as [Hin | Hin];
            [injection Hin as _ <-; cbn [length]; lia |]).
    contradiction.
Qed.

Lemma MODES_patterns_climb_witness :
  StronglySorted Z.lt [0; 1; 3; 5; 6; 8; 10].
Proof.
  exact (proj1 (proj2 (MODES_patterns_climb "Locrian" [0; 1; 3; 5; 6; 8; 10]
                         eq_refl))).
Defined.

(** The twelve values a start index can take. *)
Lemma octave_cases (i : Z) :
  0 <= i < 12 ->
  i = 0 \/ i = 1 \/ i = 2 \/ i = 3 \/ i = 4 \/ i = 5 \/ i = 6 \/ i = 7
  \/ i = 8 \/ i = 9 \/ i = 10 \/ i = 11.
Proof. lia. Qed.

(** X9: the seven heptatonic modes of the catalog are the modes of the
    major scale: the [k]-th of them, taken on the [k]-th note of a major
    scale, gives the notes of that major scale started from that note. *)
Theorem heptatonic_modes_of_major (root_note mode degree : string) (k : nat)
        (major : list string) :
  get_scale_notes root_note "Major (Ionian)" = Ok major ->
  nth_error heptatonic_modes k = Some mode ->
  nth_error major k = Some degree ->
  get_scale_notes degree mode = Ok (rotate k major).
Proof.
  intros Hmajor Hmode Hdegree.
  unfold get_scale_notes in Hmajor.
  destruct (start_index root_note) as [i | e] eqn:Hs; [| discriminate Hmajor].
  cbn [bind] in Hmajor.
  destruct (octave_cases i (start_index_bounds _ _ Hs))
    as [-> | [-> | [-> | [-> | [-> | [-> | [-> | [-> | [-> | [-> | [-> | ->
       ]]]]]]]]]]];
    vm_compute in Hmajor; injection Hmajor as <-;
    (do 7 (destruct k as [| k];
           [cbn in Hmode, Hdegree;
            injection Hmode as <-; injection Hdegree as <-;
            reflexivity |]));
    cbn in Hmode; destruct k; discriminate Hmode.
Qed.

Lemma heptatonic_modes_of_major_witness :
  get_scale_notes "D" "Dorian" = Ok ["D"; "E"; "F"; "G"; "A"; "B"; "C"].
Proof.
  exact (heptatonic_modes_of_major "C" "Dorian" "D" 1
           ["C"; "D"; "E"; "F"; "G"; "A"; "B"] eq_refl eq_refl eq_refl).
Defined.

(** X10: the pentatonic scales sit inside the heptatonic ones on the same
    root, major in major and minor in minor; the minor pentatonic of the
    note nine frets up is the major pentatonic started from its last note;
    and the Blues scale is the minor pentatonic with the note six frets
    above the root put in after its third note. *)
Theorem pentatonic_scales (root_note relative tritone : string) :
  In root_note NOTES ->
  get_note_at_position root_note 9 = Ok relative ->
  get_note_at_position root_note 6 = Ok tritone ->
  exists penta_major penta_minor major minor,
    get_scale_notes root_note "Pentatonic Major" = Ok penta_major
    /\ get_scale_notes root_note "Pentatonic Minor" = Ok penta_minor
    /\ get_scale_notes root_note "Major (Ionian)" = Ok major
    /\ get_scale_notes root_note "Minor (Aeolian)" = Ok minor
    /\ incl penta_major major
    /\ incl penta_minor minor
    /\ get_scale_notes relative "Pentatonic Minor"
       = Ok (rotate 4 penta_major)
    /\ get_scale_notes root_note "Blues"
       = Ok (firstn 3 penta_minor ++ tritone :: skipn 3 penta_minor)%list.
Proof.
  intros Hroot Hrel Htri. cbn in Hroot.
  repeat (destruct Hroot as [<- | Hroot];
          [vm_compute in Hrel, Htri;
           injection Hrel as <-; injection Htri as <-;
           do 4 eexists;
           repeat (split; [reflexivity |]);
           split; [listed_incl |];
           split; [listed_incl |];
           split; reflexivity |]).
  contradiction.
Qed.

Lemma pentatonic_scales_witness :
  get_scale_notes "F#/Gb" "Pentatonic Minor"
  = Ok ["F#/Gb"; "A"; "B"; "C#/Db"; "E"]
  /\ get_scale_notes "A" "Blues"
     = Ok ["A"; "C"; "D"; "D#/Eb"; "E"; "G"].
Proof.
  assert (Hroot : In "A" NOTES) by (cbn; tauto).
  destruct (pentatonic_scales "A" "F#/Gb" "D#/Eb" Hroot eq_refl eq_refl)
    as [pM [pm [M [m [HpM [Hpm [_ [_ [_ [_ [Hrel Hblues]]]]]]]]]]].
  vm_compute in HpM. injection HpM as <-.
  vm_compute in Hpm. injection Hpm as <-.
  split; [exact Hrel | exact Hblues].
Defined.

(** ** Which cells get marked *)

Lemma get_scale_notes_inv (root_note mode : string) (scale_notes : list string) :
  get_scale_notes root_note mode = Ok scale_notes ->
  exists i intervals,
    start_index root_note = Ok i
    /\ Py.lookup mode MODES = Ok intervals
    /\ comprehension
         (fun interval => Py.getitem NOTES ((i + interval) mod 12))
         intervals = Ok scale_notes.
Proof.
  unfold get_scale_notes. intros H.
  destruct (start_index root_note) as [i | e]; [| discriminate H].
  cbn [bind] in H.
  destruct (Py.lookup mode MODES) as [intervals | e]; [| discriminate H].
  cbn [bind] in H. now exists i, intervals.
Qed.

Lemma get_scale_notes_canonical (root_note mode : string)
      (scale_notes : list string) :
  get_scale_notes root_note mode = Ok scale_notes ->
  Forall (fun name => In name NOTES) scale_notes.
Proof.
  intros H. destruct (get_scale_notes_inv _ _ _ H) as [i [ivs [_ [_ Hc]]]].
  exact (scale_notes_canonical _ _ _ Hc).
Qed.

(** The root of the table a scale was asked for is in the scale. *)
Lemma root_in_scale (root_note mode : string) (scale_notes : list string) :
  In root_note NOTES ->
  get_scale_notes root_note mode = Ok scale_notes ->
  In root_note scale_notes.
Proof.
  intros Hroot H.
  destruct (get_scale_notes_inv _ _ _ H) as [i [ivs [Hs [Hm Hc]]]].
  destruct (pattern_ok_inv _ (catalog_pattern_ok _ _ (lookup_In _ _ _ _ Hm)))
    as [rest [-> _]].
  cbn [comprehension] in Hc.
  destruct (getitem_NOTES_mod (i + 0)) as [y [Hy Hg]].
  rewrite Hg in Hc. cbn [bind] in Hc.
  destruct (comprehension _ rest) as [ys |]; [| discriminate Hc].
  cbn [bind] in Hc. injection Hc as <-. left.
  pose proof (start_index_bounds _ _ Hs) as Hi.
  rewrite Z.add_0_r, Z.mod_small in Hy by lia.
  rewrite start_index_canonical in Hs by exact Hroot.
  apply index_Ok in Hs. destruct Hs as [_ Hn].
  rewrite canonical_name_nth in Hy by lia. congruence.
Qed.

(** A name outside the table is in no scale made of table names. *)
Lemma off_table_not_in_scale (x : string) (scale_notes : list string) :
  ~ In x NOTES ->
  Forall (fun name => In name NOTES) scale_notes ->
  Py.contains x scale_notes = false.
Proof.
  intros Hx Hall. apply contains_not_In. intros Hin.
  rewrite Forall_forall in Hall. exact (Hx (Hall x Hin)).
Qed.

(** On names of the table, the two halves of a pair name never match:
    only a name without a slash can be found in a scale. *)
Lemma in_scale_on_table (note : string) (scale_notes : list string) :
  In note NOTES ->
  Forall (fun name => In name NOTES) scale_notes ->
  is_note_in_scale note scale_notes
  = Ok (negb (Py.has_char slash note) && Py.contains note scale_notes).
Proof.
  intros Hnote Hall.
  assert (Hhalf : forall X Y,
             bare X -> bare Y -> ~ In X NOTES -> ~ In Y NOTES ->
             is_note_in_scale (pair_name X Y) scale_notes = Ok false).
  { intros X Y HX HY HnX HnY. rewrite (is_note_in_scale_pair _ _ _ HX HY).
    rewrite (off_table_not_in_scale _ _ HnX Hall).
    now rewrite (off_table_not_in_scale _ _ HnY Hall). }
  cbn in Hnote.
  repeat (destruct Hnote as [<- | Hnote];
          [first
             [ now rewrite is_note_in_scale_bare by reflexivity
             | match goal with
               | |- is_note_in_scale ?n _ = _ =>
                   let X := eval vm_compute in (first_piece n) in
                   let Y :=
                     eval vm_compute in (hd "" (tl (Py.split slash n))) in
                   change n with (pair_name X Y);
                   rewrite (Hhalf X Y) by
                     (first [ reflexivity
                            | intros H; cbn in H;
                              repeat (destruct H as [H | H];
                                      [discriminate H |]);
                              exact H ]);
                   reflexivity
               end ] |]).
  contradiction.
Qed.

(** Between names of the table the root test is plain equality. *)
Lemma is_root_on_table (note root_note : string) :
  In note NOTES -> In root_note NOTES ->
  is_root note root_note = String.eqb note root_note.
Proof.
  intros Hnote Hroot. cbn in Hnote, Hroot.
  repeat (destruct Hnote as [<- | Hnote];
          [repeat (destruct Hroot as [<- | Hroot]; [reflexivity |]);
           contradiction |]).
  contradiction.
Qed.

Lemma fret_cell_inv (root_note : string) (scale_notes : list string)
      (open_string : string) (fret : Z) (note : string) (mark : marking) :
  fret_cell root_note scale_notes open_string fret = Ok (note, mark) ->
  exists in_scale,
    get_note_at_position open_string fret = Ok note
    /\ is_note_in_scale note scale_notes = Ok in_scale
    /\ mark = if in_scale
              then if is_root note root_note then RootMark else ScaleMark
              else Plain.
Proof.
  unfold fret_cell. intros H.
  destruct (get_note_at_position open_string fret) as [n | e];
    [| discriminate H].
  cbn [bind] in H.
  destruct (is_note_in_scale n scale_notes) as [b | e] eqn:Hb;
    [| discriminate H].
  cbn [bind] in H. exists b.
  destruct b; [destruct (is_root n root_note) eqn:Hr |];
    injection H as <- <-; rewrite ?Hr; repeat split; assumption.
Qed.

Lemma get_note_at_position_In (string_note : string) (fret : Z)
      (note : string) :
  get_note_at_position string_note fret = Ok note -> In note NOTES.
Proof.
  intros H. destruct (get_note_at_position_inv _ _ _ H) as [i [_ [_ Hc]]].
  exact (canonical_name_In _ _ Hc).
Qed.

(** X11: against a scale [get_scale_notes] has returned, a note of the
    table is found in the scale exactly when it is written without a
    slash and is an element of the scale; a pair name such as C#/Db is
    never found, also when the scale holds it. *)
Theorem is_note_in_scale_of_scale (root_note mode note : string)
        (scale_notes : list string) :
  get_scale_notes root_note mode = Ok scale_notes ->
  In note NOTES ->
  exists in_scale,
    is_note_in_scale note scale_notes = Ok in_scale
    /\ (in_scale = true <-> bare note /\ In note scale_notes).
Proof.
  intros Hscale Hnote.
  exists (negb (Py.has_char slash note) && Py.contains note scale_notes).
  split.
  - apply in_scale_on_table; [exact Hnote |].
    exact (get_scale_notes_canonical _ _ _ Hscale).
  - rewrite andb_true_iff, negb_true_iff, contains_In. reflexivity.
Qed.

Lemma is_note_in_scale_of_scale_witness :
  is_note_in_scale "F#/Gb" ["D"; "E"; "F#/Gb"; "G"; "A"; "B"; "C#/Db"]
  = Ok false
  /\ is_note_in_scale "G" ["D"; "E"; "F#/Gb"; "G"; "A"; "B"; "C#/Db"]
     = Ok true.
Proof.
  assert (Hscale : get_scale_notes "D" "Major (Ionian)"
                   = Ok ["D"; "E"; "F#/Gb"; "G"; "A"; "B"; "C#/Db"])
    by reflexivity.
  split.
  - assert (Hnote : In "F#/Gb" NOTES) by (cbn; tauto).
    destruct (is_note_in_scale_of_scale "D" "Major (Ionian)" "F#/Gb" _
                Hscale Hnote) as [b [Hb Hiff]].
    rewrite Hb. f_equal. apply not_true_is_false. intros Htrue.
    apply Hiff in Htrue. destruct Htrue as [Hbare _]. discriminate Hbare.
  - assert (Hnote : In "G" NOTES) by (cbn; tauto).
    destruct (is_note_in_scale_of_scale "D" "Major (Ionian)" "G" _
                Hscale Hnote) as [b [Hb Hiff]].
    rewrite Hb. f_equal. apply Hiff. split; [reflexivity | cbn; tauto].
Defined.

(** X12: how a cell is marked, for a root of the table: the root marking
    goes to the cells whose note is the root, and only when the root is
    written without a slash; the scale marking goes to the other notes
    without a slash that are in the scale; every other cell, every sharp
    among them, is left plain. *)
Theorem fret_cell_marking (root_note mode open_string note : string)
        (scale_notes : list string) (fret : Z) (mark : marking) :
  In root_note NOTES ->
  get_scale_notes root_note mode = Ok scale_notes ->
  fret_cell root_note scale_notes open_string fret = Ok (note, mark) ->
  (mark = RootMark <-> note = root_note /\ bare root_note)
  /\ (mark = ScaleMark
      <-> note <> root_note /\ bare note /\ In note scale_notes)
  /\ (mark = Plain <-> ~ (bare note /\ In note scale_notes)).
Proof.
  intros Hroot Hscale Hcell.
  destruct (fret_cell_inv _ _ _ _ _ _ Hcell) as [b [Hnote [Hb ->]]].
  pose proof (get_note_at_position_In _ _ _ Hnote) as Hin.
  rewrite (in_scale_on_table _ _ Hin (get_scale_notes_canonical _ _ _ Hscale))
    in Hb.
  injection Hb as <-.
  rewrite (is_root_on_table _ _ Hin Hroot).
  pose proof (root_in_scale _ _ _ Hroot Hscale) as Hhead.
  unfold bare.
  destruct (String.eqb_spec note root_note) as [-> | Hne].
  - apply contains_In in Hhead. rewrite Hhead, andb_true_r.
    destruct (Py.has_char slash root_note); cbn [negb];
      apply contains_In in Hhead;
      repeat split; try discriminate; try tauto; intuition discriminate.
  - destruct (Py.has_char slash note); cbn [negb andb].
    + repeat split; try discriminate; try tauto; intuition discriminate.
    + destruct (Py.contains note scale_notes) eqn:Hc.
      * apply contains_In in Hc.
        repeat split; try discriminate; try tauto; intuition discriminate.
      * apply contains_not_In in Hc.
        repeat split; try discriminate; try tauto; intuition discriminate.
Qed.

Lemma fret_cell_marking_witness :
  fret_cell "E" ["E"; "G"; "A"; "B"; "D"] "A" 7 = Ok ("E", RootMark)
  /\ (RootMark = RootMark <-> "E" = "E" /\ bare "E").
Proof.
  assert (Hroot : In "E" NOTES) by (cbn; tauto).
  assert (Hscale : get_scale_notes "E" "Pentatonic Minor"
                   = Ok ["E"; "G"; "A"; "B"; "D"]) by reflexivity.
  assert (Hcell : fret_cell "E" ["E"; "G"; "A"; "B"; "D"] "A" 7
                  = Ok ("E", RootMark)) by reflexivity.
  split; [exact Hcell |].
  exact (proj1 (fret_cell_marking "E" "Pentatonic Minor" "A" "E" _ 7 RootMark
                  Hroot Hscale Hcell)).
Defined.

(** ** The grid *)

(** The [n]-th result of a comprehension comes from the [n]-th element. *)
Lemma comprehension_nth (A B : Type) (f : A -> result B) (xs : list A)
      (ys : list B) (n : nat) :
  comprehension f xs = Ok ys ->
  (forall y, nth_error ys n = Some y ->
             exists x, nth_error xs n = Some x /\ f x = Ok y)
  /\ (forall x, nth_error xs n = Some x ->
                exists y, nth_error ys n = Some y /\ f x = Ok y).
Proof.
  revert ys n. induction xs as [| x xs IH]; intros ys n H.
  - cbn in H. injection H as <-.
    split; intros z Hz; destruct n; discriminate Hz.
  - cbn [comprehension] in H.
    destruct (f x) as [y |] eqn:Hy; [| discriminate H]. cbn [bind] in H.
    destruct (comprehension f xs) as [ys' |]; [| discriminate H].
    cbn [bind] in H. injection H as <-.
    destruct n as [| n].
    + split; intros z Hz; cbn in Hz; injection Hz as <-.
      * now exists x.
      * now exists y.
    + exact (IH ys' n eq_refl).
Qed.

Lemma range_nth (m : Z) (n : nat) (x : Z) :
  nth_error (range m) n = Some x -> x = Z.of_nat n /\ Z.of_nat n < m.
Proof.
  unfold range. rewrite nth_error_map.
  destruct (nth_error (seq 0 (Z.to_nat m)) n) as [k |] eqn:Hk;
    cbn [option_map]; intros H; [| discriminate H].
  injection H as <-.
  assert (Hlen : (n < Z.to_nat m)%nat).
  { rewrite <- (length_seq (Z.to_nat m) 0).
    apply nth_error_Some. congruence. }
  apply (nth_error_nth _ _ 0%nat) in Hk.
  rewrite seq_nth in Hk by exact Hlen. subst k.
  split; [reflexivity | lia].
Qed.

Lemma range_nth_in (m : Z) (n : nat) :
  Z.of_nat n < m -> nth_error (range m) n = Some (Z.of_nat n).
Proof.
  intros H. unfold range.
  rewrite nth_error_map.
  assert (Hlen : (n < Z.to_nat m)%nat) by lia.
  destruct (nth_error (seq 0 (Z.to_nat m)) n) as [k |] eqn:Hk.
  - apply (nth_error_nth _ _ 0%nat) in Hk.
    rewrite seq_nth in Hk by exact Hlen. cbn [option_map]. now subst k.
  - exfalso. apply nth_error_None in Hk. rewrite length_seq in Hk. lia.
Qed.

Lemma display_fretboard_inv (root_note mode : string)
      (grid : list (list (string * marking))) :
  display_fretboard root_note mode = Ok grid ->
  exists scale_notes,
    get_scale_notes root_note mode = Ok scale_notes
    /\ comprehension
         (fun open_string =>
            comprehension (fret_cell root_note scale_notes open_string)
                          (range NUM_FRETS))
         GUITAR_TUNING = Ok grid.
Proof.
  unfold display_fretboard. intros H.
  destruct (get_scale_notes root_note mode) as [scale_notes | e];
    [| discriminate H].
  cbn [bind] in H. now exists scale_notes.
Qed.

(** X13: the grid has one row per string of the tuning, six, and fifteen
    cells in every row; the cell at row [r] and column [f] holds the note
    of the [r]-th string of the tuning at fret [f], marked against the
    scale of the root and mode asked for. *)
Theorem display_fretboard_cells (root_note mode : string)
        (grid : list (list (string * marking))) :
  display_fretboard root_note mode = Ok grid ->
  length grid = 6%nat
  /\ Forall (fun row => length row = 15%nat) grid
  /\ exists scale_notes,
      get_scale_notes root_note mode = Ok scale_notes
      /\ forall r f row cell,
          nth_error grid r = Some row ->
          nth_error row f = Some cell ->
          exists open_string,
            nth_error GUITAR_TUNING r = Some open_string
            /\ get_note_at_position open_string (Z.of_nat f) = Ok (fst cell)
            /\ fret_cell root_note scale_notes open_string (Z.of_nat f)
               = Ok cell.
Proof.
  intros H. destruct (display_fretboard_inv _ _ _ H) as [scale [Hscale Hgrid]].
  split; [exact (comprehension_length _ _ _ _ _ Hgrid) |].
  split.
  - apply Forall_forall. intros row Hrow.
    destruct (In_nth_error _ _ Hrow) as [r Hr].
    destruct (proj1 (comprehension_nth _ _ _ _ _ r Hgrid) row Hr)
      as [open_string [_ Hcells]].
    exact (comprehension_length _ _ _ _ _ Hcells).
  - exists scale. split; [exact Hscale |].
    intros r f row cell Hr Hf.
    destruct (proj1 (comprehension_nth _ _ _ _ _ r Hgrid) row Hr)
      as [open_string [Hopen Hcells]].
    destruct (proj1 (comprehension_nth _ _ _ _ _ f Hcells) cell Hf)
      as [fret [Hfret Hcell]].
    apply range_nth in Hfret. destruct Hfret as [-> _].
    exists open_string. split; [exact Hopen |]. split; [| exact Hcell].
    destruct cell as [note mark].
    destruct (fret_cell_inv _ _ _ _ _ _ Hcell) as [b [Hnote _]].
    exact Hnote.
Qed.

Lemma display_fretboard_cells_witness :
  exists grid, display_fretboard "G" "Mixolydian" = Ok grid
               /\ length grid = 6%nat
               /\ Forall (fun row => length row = 15%nat) grid.
Proof.
  destruct (display_fretboard "G" "Mixolydian") as [grid | e] eqn:H;
    [| vm_compute in H; discriminate H].
  exists grid. split; [reflexivity |].
  destruct (display_fretboard_cells "G" "Mixolydian" grid H)
    as [Hrows [Hcols _]].
  split; assumption.
Defined.

(** On every string of the table the root is reached at one of the first
    twelve frets. *)
Lemma root_fret (root_note open_string : string) :
  In root_note NOTES -> In open_string NOTES ->
  exists n, Z.of_nat n < 12
            /\ get_note_at_position open_string (Z.of_nat n) = Ok root_note.
Proof.
  intros Hroot Hopen.
  destruct (index_In _ _ Hroot) as [i [Hi [Hri Hni]]].
  destruct (index_In _ _ Hopen) as [j [Hj [Hrj Hnj]]].
  rewrite length_NOTES in Hri, Hrj.
  assert (Hf : 0 <= (i - j) mod 12 < 12) by (apply Z.mod_pos_bound; lia).
  exists (Z.to_nat ((i - j) mod 12)). rewrite Z2Nat.id by lia.
  split; [lia |].
  rewrite <- start_index_canonical in Hj by exact Hopen.
  rewrite (get_note_at_position_from_index _ _ _ Hj).
  rewrite Z.add_mod_idemp_r by lia.
  replace (j + (i - j)) with i by lia. rewrite Z.mod_small by lia.
  destruct (getitem_in_range _ NOTES i) as [a [Ha Hg]];
    [rewrite length_NOTES; lia |].
  congruence.
Qed.

(** X14: a root written without a slash is marked as root on every
    string of the grid; a root written as a pair, as every sharp the
    selection maps to, is marked as root nowhere. *)
Theorem display_fretboard_root_marks (root_note mode : string)
        (grid : list (list (string * marking))) :
  In root_note NOTES ->
  display_fretboard root_note mode = Ok grid ->
  (bare root_note ->
   forall row, In row grid -> In (root_note, RootMark) row)
  /\ (~ bare root_note ->
      forall row cell, In row grid -> In cell row -> snd cell <> RootMark).
Proof.
  intros Hroot H.
  destruct (display_fretboard_inv _ _ _ H) as [scale [Hscale Hgrid]].
  pose proof (get_scale_notes_canonical _ _ _ Hscale) as Hcanon.
  split.
  - intros Hbare row Hrow.
    destruct (In_nth_error _ _ Hrow) as [r Hr].
    destruct (proj1 (comprehension_nth _ _ _ _ _ r Hgrid) row Hr)
      as [open_string [Hopen Hcells]].
    apply nth_error_In, GUITAR_TUNING_canonical in Hopen.
    destruct (root_fret _ _ Hroot Hopen) as [n [Hn Hnote]].
    assert (Hfret : nth_error (range NUM_FRETS) n = Some (Z.of_nat n))
      by (apply range_nth_in; unfold NUM_FRETS; lia).
    destruct (proj2 (comprehension_nth _ _ _ _ _ n Hcells) _ Hfret)
      as [cell [Hcell Hmark]].
    apply nth_error_In in Hcell.
    unfold fret_cell in Hmark. rewrite Hnote in Hmark. cbn [bind] in Hmark.
    rewrite (in_scale_on_table _ _ Hroot Hcanon) in Hmark.
    unfold bare in Hbare. rewrite Hbare in Hmark.
    pose proof (root_in_scale _ _ _ Hroot Hscale) as Hin.
    apply contains_In in Hin. rewrite Hin in Hmark.
    cbn [negb andb bind] in Hmark.
    rewrite (is_root_on_table _ _ Hroot Hroot), String.eqb_refl in Hmark.
    injection Hmark as <-. exact Hcell.
  - intros Hpair row [note mark] Hrow Hcell Hmark. cbn [snd] in Hmark.
    subst mark.
    destruct (In_nth_error _ _ Hrow) as [r Hr].
    destruct (proj1 (comprehension_nth _ _ _ _ _ r Hgrid) row Hr)
      as [open_string [_ Hcells]].
    destruct (In_nth_error _ _ Hcell) as [f Hf].
    destruct (proj1 (comprehension_nth _ _ _ _ _ f Hcells) _ Hf)
      as [fret [_ Hfc]].
    destruct (fret_cell_inv _ _ _ _ _ _ Hfc) as [b [Hnote [Hb Hm]]].
    pose proof (get_note_at_position_In _ _ _ Hnote) as Hin.
    rewrite (in_scale_on_table _ _ Hin Hcanon) in Hb. injection Hb as <-.
    rewrite (is_root_on_table _ _ Hin Hroot) in Hm.
    destruct (String.eqb_spec note root_note) as [-> | Hne].
    + unfold bare in Hpair.
      destruct (Py.has_char slash root_note);
        [discriminate Hm | now apply Hpair].
    + destruct (negb (Py.has_char slash note)
                && Py.contains note scale); discriminate Hm.
Qed.

Lemma display_fretboard_root_marks_witness :
  exists grid,
    display_fretboard "F#/Gb" "Lydian" = Ok grid
    /\ forall row cell, In row grid -> In cell row -> snd cell <> RootMark.
Proof.
  assert (Hroot : In "F#/Gb" NOTES) by (cbn; tauto).
  destruct (display_fretboard "F#/Gb" "Lydian") as [grid | e] eqn:H;
    [| vm_compute in H; discriminate H].
  exists grid. split; [reflexivity |].
  apply (proj2 (display_fretboard_root_marks "F#/Gb" "Lydian" grid Hroot H)).
  intros Hbare. discriminate Hbare.
Defined.

(** ** The selection *)

(** X15: the mapping of the selected name never raises, whatever the
    name: a name that is no key of [note_mapping] is kept, mapping twice
    changes nothing more, and each of the twelve display names goes to a
    name of the table whose text before the slash is the display name. *)
Theorem normalize_outcomes (selected_note : string) :
  exists root_note,
    normalize selected_note = Ok root_note
    /\ normalize root_note = Ok root_note
    /\ (~ In selected_note (Py.keys note_mapping) ->
        root_note = selected_note)
    /\ (In selected_note display_notes ->
        In root_note NOTES /\ first_piece root_note = selected_note).
Proof.
  unfold normalize.
  destruct (Py.contains selected_note (Py.keys note_mapping)) eqn:Hc.
  - apply contains_In in Hc. cbn in Hc.
    repeat (destruct Hc as [<- | Hc];
            [eexists; split; [reflexivity |]; split; [reflexivity |];
             split; [intros Hn; exfalso; apply Hn; cbn; tauto |];
             intros _; split; [cbn; tauto | reflexivity] |]).
    contradiction.
  - exists selected_note. split; [reflexivity |].
    rewrite Hc. split; [reflexivity |]. split; [reflexivity |].
    intros Hd. apply contains_not_In in Hc. cbn in Hd.
    repeat (destruct Hd as [<- | Hd];
            [first [ split; [cbn; tauto | reflexivity]
                   | exfalso; apply Hc; cbn; tauto ] |]).
    contradiction.
Qed.

Lemma normalize_outcomes_witness :
  normalize "A#" = Ok "A#/Bb" /\ normalize "Bb" = Ok "Bb".
Proof.
  split.
  - destruct (normalize_outcomes "A#") as [root [Hn [_ [_ Hd]]]].
    rewrite Hn. f_equal.
    destruct Hd as [Hin Hfirst]; [cbn; tauto |].
    cbn in Hin.
    repeat (destruct Hin as [<- | Hin];
            [first [reflexivity | discriminate Hfirst] |]).
    contradiction.
  - destruct (normalize_outcomes "Bb") as [root [Hn [_ [Hkeep _]]]].
    rewrite Hn. f_equal. apply Hkeep. intros H. cbn in H.
    repeat (destruct H as [H | H]; [discriminate H |]). exact H.
Defined.

Lemma get_absent (V : Type) (k : string) (d : list (string * V))
      (default : V) :
  ~ In k (Py.keys d) -> Py.get k d default = default.
Proof.
  induction d as [| [k' v'] d IH]; intros Hn.
  - reflexivity.
  - cbn [Py.get]. destruct (String.eqb_spec k' k) as [-> | Hne].
    + exfalso. apply Hn. now left.
    + apply IH. intros H. apply Hn. now right.
Qed.

(** X16: the descriptions are keyed by the very names of the catalog, in
    its order: every mode that can be selected has a description stored
    for it, which is not empty, and any other name gets the empty text. *)
Theorem mode_explanation_catalog (selected_mode : string) :
  Py.keys mode_explanations = Py.keys MODES
  /\ (In selected_mode (Py.keys MODES) ->
      mode_explanation selected_mode <> ""
      /\ In (selected_mode, mode_explanation selected_mode)
            mode_explanations)
  /\ (~ In selected_mode (Py.keys MODES) ->
      mode_explanation selected_mode = "").
Proof.
  split; [reflexivity |]. split.
  - intros H. cbn in H.
    repeat (destruct H as [<- | H];
            [split; [discriminate | cbn; tauto] |]).
    contradiction.
  - intros H. unfold mode_explanation. apply get_absent.
    exact H.
Qed.

Lemma mode_explanation_catalog_witness :
  mode_explanation "Locrian" <> "" /\ mode_explanation "Whole Tone" = "".
Proof.
  destruct (mode_explanation_catalog "Locrian") as [_ [Hin _]].
  destruct (mode_explanation_catalog "Whole Tone") as [_ [_ Hout]].
  split.
  - apply Hin. cbn. tauto.
  - apply Hout. intros H. cbn in H.
    repeat (destruct H as [H | H]; [discriminate H |]). exact H.
Defined.
